(** * godot-cpp [core/math.hpp]: a shallow embedding and its properties

    The header [include/godot_cpp/core/math.hpp] provides integer helpers for
    powers of two, modular wrapping, approximate comparison and interpolation
    of scalars.  The development below embeds the functions in Gallina and
    proves (or refutes) the properties stated about them.

    - [unsigned int] is a [Z] in [[0, 2^32)], arithmetic wraps modulo [2^32];
    - [int64_t] is a [Z] in [[-2^63, 2^63)], arithmetic wraps (two's
      complement), [%] is the truncating remainder [Z.rem];
    - scalars ([float], [double], [real_t]) are an interface [Scalar] with two
      instances: IEEE-754 binary64 (the kernel's primitive floats, which is
      what the [double] overloads compute with) and exact rational arithmetic
      (the rounding-free reading of the same formulas). *)

From Stdlib Require Import ZArith QArith Qround Qabs Bool Lia Lqa Floats.

Set Warnings "-inexact-float".


(* ================================================================== *)
(** * Machine integers *)


Module UInt32.
Local Open Scope Z_scope.

Definition modulus : Z := 2 ^ 32.

(** Reduction of a mathematical result to [unsigned int]. *)
Definition wrap (z : Z) : Z := z mod modulus.

Definition in_range (z : Z) : Prop := 0 <= z < modulus.
End UInt32.

Module Int64.
Local Open Scope Z_scope.

Definition min_int : Z := - 2 ^ 63.
Definition max_int : Z := 2 ^ 63 - 1.

(** Two's complement reduction of a mathematical result to [int64_t]. *)
Definition wrap (z : Z) : Z := (z + 2 ^ 63) mod 2 ^ 64 - 2 ^ 63.

Definition in_range (z : Z) : Prop := min_int <= z <= max_int.
End Int64.

(* ================================================================== *)
(** * Functions to handle powers of 2 *)

Module BitUtils.
Local Open Scope Z_scope.
Import UInt32.

(** The five statements [x |= x >> 1; ... x |= x >> 16;] shared by
    [next_power_of_2] and [previous_power_of_2].  Neither [|] nor [>>]
    leaves [[0, 2^32)], so no reduction is needed between them. *)
Definition smear (x : Z) : Z :=
  let x := Z.lor x (Z.shiftr x 1) in
  let x := Z.lor x (Z.shiftr x 2) in
  let x := Z.lor x (Z.shiftr x 4) in
  let x := Z.lor x (Z.shiftr x 8) in
  let x := Z.lor x (Z.shiftr x 16) in
  x.

Definition next_power_of_2 (x : Z) : Z :=
  if x =? 0 then 0
  else
    let x := wrap (x - 1) in      (* --x *)
    let x := smear x in
    wrap (x + 1).                 (* return ++x *)

Definition previous_power_of_2 (x : Z) : Z :=
  let x := smear x in
  wrap (x - Z.shiftr x 1).

Definition closest_power_of_2 (x : Z) : Z :=
  let nx := next_power_of_2 x in
  let px := previous_power_of_2 x in
  if wrap (nx - x) >? wrap (x - px) then px else nx.
(** [for (unsigned int i = 0; i < 32; i++) if (p_bits == (unsigned int)(1 << i)) return i;]
    with [n] iterations left, then [return -1]. *)
Fixpoint get_shift_loop (n : nat) (i : Z) (p_bits : Z) : Z :=
  match n with
  | O => -1
  | S n' =>
      if p_bits =? wrap (Z.shiftl 1 i) then i
      else get_shift_loop n' (i + 1) p_bits
  end.

Definition get_shift_from_power_of_2 (p_bits : Z) : Z :=
  get_shift_loop 32 0 p_bits.

(** [for (size_t i = 0; i < num; i++) x |= x >> (1 << i);] with [n]
    iterations left. *)
Fixpoint smear_loop (n : nat) (i : Z) (x : Z) : Z :=
  match n with
  | O => x
  | S n' => smear_loop n' (i + 1) (Z.lor x (Z.shiftr x (Z.shiftl 1 i)))
  end.

(** [nearest_power_of_2_templated<T>] for an unsigned [T] of [sizeof_T]
    bytes: [--x] and [++x] wrap modulo [2^(8 * sizeof_T)]. *)
Definition nearest_power_of_2_templated (sizeof_T : Z) (x : Z) : Z :=
  let x := (x - 1) mod 2 ^ (8 * sizeof_T) in
  let num := get_shift_from_power_of_2 sizeof_T + 3 in
  let x := smear_loop (Z.to_nat num) 0 x in
  (x + 1) mod 2 ^ (8 * sizeof_T).

(** [for (int i = 30; i >= 0; i--) if (p_number & (1 << i)) return i + 1;]
    with [i = n - 1] next, then [return 0]. *)
Fixpoint nearest_shift_loop (n : nat) (p_number : Z) : Z :=
  match n with
  | O => 0
  | S n' =>
      if Z.land p_number (Z.shiftl 1 (Z.of_nat n')) =? 0
      then nearest_shift_loop n' p_number
      else Z.of_nat n' + 1
  end.

Definition nearest_shift (p_number : Z) : Z := nearest_shift_loop 31 p_number.

(** [x < 2 ? x : 1 + floor_log2(x >> 1)].  A positive [x] is at least 2
    exactly when it has a bit above bit 0, and [x >> 1] drops bit 0, so the
    recursion is the structural one on the binary representation. *)
Fixpoint floor_log2_pos (p : positive) : Z :=
  match p with
  | xH => 1
  | xO q | xI q => 1 + floor_log2_pos q
  end.

Definition floor_log2 (x : Z) : Z :=
  match x with
  | Zpos p => floor_log2_pos p
  | _ => x
  end.

Definition get_num_bits (x : Z) : Z := floor_log2 x.

(** The portable definitions of the byte swaps (the ones used when
    [__GNUC__] is not defined).  [BSWAP16] computes in [int] and converts
    the result to [uint16_t]; the others compute in [uint32_t] and
    [uint64_t], where [<<] drops the bits shifted out. *)
Definition BSWAP16 (x : Z) : Z :=
  (Z.lor (Z.shiftr x 8) (Z.shiftl x 8)) mod 2 ^ 16.

Definition BSWAP32 (x : Z) : Z :=
  Z.lor (Z.lor (Z.lor (wrap (Z.shiftl x 24))
                      (Z.land (wrap (Z.shiftl x 8)) 0x00FF0000))
               (Z.land (Z.shiftr x 8) 0x0000FF00))
        (Z.shiftr x 24).

Definition BSWAP64 (x : Z) : Z :=
  let x := Z.lor ((Z.shiftl (Z.land x 0x00000000FFFFFFFF) 32) mod 2 ^ 64)
                 (Z.shiftr (Z.land x 0xFFFFFFFF00000000) 32) in
  let x := Z.lor ((Z.shiftl (Z.land x 0x0000FFFF0000FFFF) 16) mod 2 ^ 64)
                 (Z.shiftr (Z.land x 0xFFFF0000FFFF0000) 16) in
  let x := Z.lor ((Z.shiftl (Z.land x 0x00FF00FF00FF00FF) 8) mod 2 ^ 64)
                 (Z.shiftr (Z.land x 0xFF00FF00FF00FF00) 8) in
  x.
End BitUtils.

(* ================================================================== *)
(** * Integer wrapping *)

Module IntWrap.
Local Open Scope Z_scope.
Import Int64.

(** [int64_t] arithmetic of the expression
    [min + ((((value - min) % range) + range) % range)].  Overflow is
    modelled as two's complement wrap-around; [%] is never evaluated with
    a zero divisor because of the guard.  ([INT64_MIN % -1], which traps on
    some processors, has the mathematical value [0] here.) *)
Definition wrapi (value min max : Z) : Z :=
  let range := wrap (max - min) in
  if range =? 0 then min
  else
    let r1 := Z.rem (wrap (value - min)) range in
    let r2 := Z.rem (wrap (r1 + range)) range in
    wrap (min + r2).
(** [posmod]: the remainder of [p_x % p_y] moved to the sign of [p_y].
    [None] stands for the division by zero that [%] performs when
    [p_y == 0]; there is no guard. *)
Definition posmod (p_x p_y : Z) : option Z :=
  if p_y =? 0 then None
  else
    let value := Z.rem p_x p_y in
    let value :=
      if ((value <? 0) && (0 <? p_y)) || ((0 <? value) && (p_y <? 0))
      then wrap (value + p_y) else value in
    Some value.
End IntWrap.

(* ================================================================== *)
(** * Scalars *)

(** The arithmetic the header uses on [float], [double] and [real_t].  The
    formulas are reproduced per precision in the source; here they are
    written once over this interface. *)
Class Scalar (T : Type) : Type := {
  lit : Q -> T;             (* a literal [0.5], [1e10], ... of type double *)
  litf : Q -> T;            (* a literal with the [f] suffix, widened *)
  add : T -> T -> T;
  sub : T -> T -> T;
  mul : T -> T -> T;
  div : T -> T -> T;
  opp : T -> T;
  eqb : T -> T -> bool;     (* [==] *)
  ltb : T -> T -> bool;     (* [<]  *)
  abs : T -> T;             (* [std::abs] *)
  fmod : T -> T -> T        (* [::fmod] of the C library *)
}.

Arguments lit {T _} q%_Q.
Arguments litf {T _} q%_Q.

Declare Scope scalar_scope.
Delimit Scope scalar_scope with scalar.
Infix "+" := add : scalar_scope.
Infix "-" := sub : scalar_scope.
Infix "*" := mul : scalar_scope.
Infix "/" := div : scalar_scope.
Notation "- x" := (opp x) : scalar_scope.
Infix "==?" := eqb (at level 70, no associativity) : scalar_scope.
Infix "<?" := ltb : scalar_scope.
Notation "x >? y" := (ltb y x) : scalar_scope.

(** ** Exact arithmetic on rationals *)

Module Exact.
Local Open Scope Q_scope.

(** Integer part of a rational, rounded toward zero. *)
Definition Qtrunc (q : Q) : Z := Z.quot (Qnum q) (Zpos (Qden q)).

(** [fmod x y = x - n * y] where [n] is [x / y] with its fractional part
    truncated. *)
Definition Qfmod (x y : Q) : Q := x - inject_Z (Qtrunc (x / y)) * y.

Definition Qltb (x y : Q) : bool := negb (Qle_bool y x).

#[export] Instance Q_Scalar : Scalar Q := {|
  lit q := q;
  litf q := q;
  add := Qplus;
  sub := Qminus;
  mul := Qmult;
  div := Qdiv;
  opp := Qopp;
  eqb := Qeq_bool;
  ltb := Qltb;
  abs := Qabs;
  fmod := Qfmod
|}.
End Exact.

(** ** IEEE-754 binary64 *)

Module Binary64.
Local Open Scope Z_scope.

(** Round the positive rational [n / d] to the nearest number [m * 2^e] with
    [m < 2^prec] and [e >= emin], ties to even. *)
Definition round_nearest_even (prec emin : Z) (n : Z) (d : positive) : Z * Z :=
  let e0 := Z.log2 n - Z.log2 (Zpos d) - prec in
  let quo e := if 0 <=? e then n / (Zpos d * 2 ^ e) else (n * 2 ^ (- e)) / Zpos d in
  let e1 := if quo e0 <? 2 ^ prec then e0 else e0 + 1 in
  let e := Z.max e1 emin in
  let num := if 0 <=? e then n else n * 2 ^ (- e) in
  let den := if 0 <=? e then Zpos d * 2 ^ e else Zpos d in
  let q := num / den in
  let r := num mod den in
  let m := if 2 * r <? den then q
           else if den <? 2 * r then q + 1
           else if Z.even q then q else q + 1 in
  (m, e).

(** The float [m * 2^e], for [0 <= m <= 2^53]. *)
Definition of_mantissa_exponent (neg : bool) (m e : Z) : float :=
  let f := FloatOps.Z.ldexp (PrimFloat.of_uint63 (Uint63.of_Z m)) e in
  if neg then PrimFloat.opp f else f.

(** Conversion of a rational to the format with [prec] bits of precision
    and least exponent [emin]; the result is held in a binary64. *)
Definition of_Q (prec emin : Z) (q : Q) : float :=
  match Qnum q with
  | Z0 => PrimFloat.zero
  | Zpos n =>
      let '(m, e) := round_nearest_even prec emin (Zpos n) (Qden q) in
      of_mantissa_exponent false m e
  | Zneg n =>
      let '(m, e) := round_nearest_even prec emin (Zpos n) (Qden q) in
      of_mantissa_exponent true m e
  end.

Definition double_of_Q : Q -> float := of_Q 53 (-1074).
Definition float_of_Q : Q -> float := of_Q 24 (-149).

(** The value of a finite float, [None] for infinities and NaN. *)
Definition to_Q (x : float) : option Q :=
  match Prim2SF x with
  | S754_zero _ => Some 0%Q
  | S754_finite s m e =>
      let v := if 0 <=? e then inject_Z (Zpos m * 2 ^ e)
               else Qmake (Zpos m) (Z.to_pos (2 ^ (- e))) in
      Some (if s then Qopp v else v)
  | S754_infinity _ | S754_nan => None
  end.

(** [fmod] of the C library (ISO C F.10.7.1): the result has the sign of [x]
    and magnitude less than [y]; it is always representable, so no rounding
    takes place.  [fmod(x, 0)] and [fmod(inf, y)] are NaN, [fmod(x, inf)] is
    [x] for finite [x]. *)
Definition c_fmod (x y : float) : float :=
  match to_Q x, to_Q y with
  | Some qx, Some qy =>
      if Qeq_bool qy 0 then PrimFloat.nan
      else
        let r := Exact.Qfmod qx qy in
        if Qeq_bool r 0
        then (if PrimFloat.get_sign x then PrimFloat.neg_zero else PrimFloat.zero)
        else double_of_Q r
  | Some _, None => if PrimFloat.is_nan y then PrimFloat.nan else x
  | None, _ => PrimFloat.nan
  end.

#[export] Instance float_Scalar : Scalar float := {|
  lit := double_of_Q;
  litf := float_of_Q;
  add := PrimFloat.add;
  sub := PrimFloat.sub;
  mul := PrimFloat.mul;
  div := PrimFloat.div;
  opp := PrimFloat.opp;
  eqb := PrimFloat.eqb;
  ltb := PrimFloat.ltb;
  abs := PrimFloat.abs;
  fmod := c_fmod
|}.
End Binary64.

(** ** Ordering and rounding *)

(** [<=] and [::floor], for the functions that wrap, snap and round. *)
Class ScalarRound (T : Type) : Type := {
  leb : T -> T -> bool;     (* [<=] *)
  floor : T -> T            (* [::floor] of the C library *)
}.

Infix "<=?" := leb : scalar_scope.
Notation "x >=? y" := (leb y x) (at level 70, no associativity) : scalar_scope.
Notation "x !=? y" := (negb (eqb x y)) (at level 70, no associativity) : scalar_scope.

Module ExactRound.
#[export] Instance Q_ScalarRound : ScalarRound Q := {|
  leb := Qle_bool;
  floor q := inject_Z (Qfloor q)
|}.
End ExactRound.

Module Binary64Round.
Import Binary64.

(** [floor] of the C library (ISO C F.10.6.2): zeros, infinities and NaN
    are returned unchanged; the floor of a finite number is representable,
    and it is [+0] for an argument in [(0, 1)]. *)
Definition c_floor (x : float) : float :=
  match to_Q x with
  | Some q => if Qeq_bool q 0 then x else double_of_Q (inject_Z (Qfloor q))
  | None => x
  end.

#[export] Instance float_ScalarRound : ScalarRound float := {|
  leb := PrimFloat.leb;
  floor := c_floor
|}.
End Binary64Round.

(* ================================================================== *)
(** * namespace Math *)

(** Preprocessor configuration of a translation unit that includes the
    header. *)
Inductive FtoiBranch : Type :=
| FtoiWindowsPhone   (* _WIN32_WINNT >= 0x0603 or WINAPI_FAMILY_PHONE_APP *)
| FtoiOldMSVC        (* _MSC_VER < 1800 *)
| FtoiLrint.         (* everything else *)

Record BuildConfig : Type := {
  PRECISE_MATH_CHECKS : bool;   (* is the macro defined? *)
  ftoi_branch : FtoiBranch
}.

(** The two configurations of the epsilon switch (on a platform that has
    [lrintf]). *)
Definition precise_config : BuildConfig :=
  {| PRECISE_MATH_CHECKS := true; ftoi_branch := FtoiLrint |}.

Definition tolerant_config : BuildConfig :=
  {| PRECISE_MATH_CHECKS := false; ftoi_branch := FtoiLrint |}.

Module Math.
Section Generic.
Context {T : Type} {ST : Scalar T}.
Local Open Scope scalar_scope.

Definition Math_TAU : T := lit 6.2831853071795864769252867666.

(** [#define CMP_EPSILON 0.00001f], whatever the configuration. *)
Definition CMP_EPSILON (cfg : BuildConfig) : T := litf 0.00001.

(** [UNIT_EPSILON] is the one macro selected by [PRECISE_MATH_CHECKS]. *)
Definition UNIT_EPSILON (cfg : BuildConfig) : T :=
  if PRECISE_MATH_CHECKS cfg then lit 0.00001 else lit 0.001.


Definition max (a b : T) : T := if a >? b then a else b.


Definition lerp (minv maxv t : T) : T := minv + t * (maxv - minv).


(** Division that records a zero denominator: [None] stands for a division
    by zero having been evaluated. *)
Definition checked_div (x y : T) : option T :=
  if y ==? lit 0 then None else Some (x / y).

Definition bind {A B : Type} (m : option A) (k : A -> option B) : option B :=
  match m with
  | Some a => k a
  | None => None
  end.

Local Notation "x <- m ;; k" := (bind m (fun x => k))
  (at level 61, m at next level, right associativity).

(** The five blend ratios of [cubic_interpolate_in_time], in the order of
    the source:
    [p_pre_t == 0 ? 0.0 : (t - p_pre_t) / -p_pre_t],
    [p_to_t == 0 ? 0.5 : t / p_to_t],
    [p_post_t - p_to_t == 0 ? 1.0 : (t - p_to_t) / (p_post_t - p_to_t)],
    [p_to_t - p_pre_t == 0 ? 0.0 : (t - p_pre_t) / (p_to_t - p_pre_t)],
    [p_post_t == 0 ? 1.0 : t / p_post_t]. *)
Definition ratio_pre (t p_pre_t : T) : option T :=
  if p_pre_t ==? lit 0 then Some (lit 0.0)
  else checked_div (t - p_pre_t) (- p_pre_t).

Definition ratio_to (t p_to_t : T) : option T :=
  if p_to_t ==? lit 0 then Some (lit 0.5)
  else checked_div t p_to_t.

Definition ratio_to_post (t p_to_t p_post_t : T) : option T :=
  if (p_post_t - p_to_t) ==? lit 0 then Some (lit 1.0)
  else checked_div (t - p_to_t) (p_post_t - p_to_t).

Definition ratio_pre_to (t p_to_t p_pre_t : T) : option T :=
  if (p_to_t - p_pre_t) ==? lit 0 then Some (lit 0.0)
  else checked_div (t - p_pre_t) (p_to_t - p_pre_t).

Definition ratio_post (t p_post_t : T) : option T :=
  if p_post_t ==? lit 0 then Some (lit 1.0)
  else checked_div t p_post_t.

(** Barry-Goldman method. *)
Definition cubic_interpolate_in_time
    (p_from p_to p_pre p_post p_weight p_to_t p_pre_t p_post_t : T) : option T :=
  let t := lerp (lit 0.0) p_to_t p_weight in
  w1 <- ratio_pre t p_pre_t ;;
  let a1 := lerp p_pre p_from w1 in
  w2 <- ratio_to t p_to_t ;;
  let a2 := lerp p_from p_to w2 in
  w3 <- ratio_to_post t p_to_t p_post_t ;;
  let a3 := lerp p_to p_post w3 in
  w4 <- ratio_pre_to t p_to_t p_pre_t ;;
  let b1 := lerp a1 a2 w4 in
  w5 <- ratio_post t p_post_t ;;
  let b2 := lerp a2 a3 w5 in
  w6 <- ratio_to t p_to_t ;;
  Some (lerp b1 b2 w6).

Definition is_equal_approx (cfg : BuildConfig) (a b : T) : bool :=
  (* Check for exact equality first, required to handle "infinity" values. *)
  if a ==? b then true
  else
    (* Then check for approximate equality. *)
    let tolerance := CMP_EPSILON cfg * abs a in
    let tolerance :=
      if tolerance <? CMP_EPSILON cfg then CMP_EPSILON cfg else tolerance in
    abs (a - b) <? tolerance.

Definition is_equal_approx_tolerance (a b tolerance : T) : bool :=
  if a ==? b then true else abs (a - b) <? tolerance.

Definition is_zero_approx (cfg : BuildConfig) (s : T) : bool :=
  abs s <? CMP_EPSILON cfg.





Definition cubic_interpolate_angle_in_time
    (p_from p_to p_pre p_post p_weight p_to_t p_pre_t p_post_t : T) : option T :=
  let from_rot := fmod p_from Math_TAU in
  let pre_diff := fmod (p_pre - from_rot) Math_TAU in
  let pre_rot := from_rot + fmod (lit 2.0 * pre_diff) Math_TAU - pre_diff in
  let to_diff := fmod (p_to - from_rot) Math_TAU in
  let to_rot := from_rot + fmod (lit 2.0 * to_diff) Math_TAU - to_diff in
  let post_diff := fmod (p_post - to_rot) Math_TAU in
  let post_rot := to_rot + fmod (lit 2.0 * post_diff) Math_TAU - post_diff in
  cubic_interpolate_in_time from_rot to_rot pre_rot post_rot p_weight
    p_to_t p_pre_t p_post_t.


Definition clamp (x minv maxv : T) : T :=
  if x <? minv then minv
  else if x >? maxv then maxv
  else x.

Definition min (a b : T) : T := if a <? b then a else b.

(** [SIGN]: [m_v == 0 ? 0.0f : (m_v < 0 ? -1.0f : +1.0f)]. *)
Definition sign (x : T) : T :=
  if x ==? lit 0 then litf 0.0
  else if x <? lit 0 then - litf 1.0 else litf 1.0.








End Generic.

Section Rounding.
Context {T : Type} {ST : Scalar T} {SR : ScalarRound T}.
Local Open Scope scalar_scope.











End Rounding.
End Math.

(** ** [fast_ftoi] and the storage it uses *)

Module FastFtoi.
Section WithExternals.
Context {T : Type} {ST : Scalar T}.
Local Open Scope scalar_scope.

(** Conversions to integer that the header takes from elsewhere: [lrintf]
    of the C library, the x87 [fistp] instruction and the conversion
    [(int)] of a [double]; each yields an [int]. *)
Variable lrintf : T -> Z.
Variable fistp : T -> Z.
Variable int_of_double : T -> Z.

(** Objects with static storage duration: the [static int b] declared in
    [fast_ftoi]. *)
Record Statics : Type := { fast_ftoi_b : Z }.

(** Zero-initialised at program start. *)
Definition initial_statics : Statics := {| fast_ftoi_b := 0 |}.

Definition fast_ftoi (cfg : BuildConfig) (a : T) (st : Statics) : Z * Statics :=
  let st :=
    match ftoi_branch cfg with
    | FtoiWindowsPhone =>
        {| fast_ftoi_b :=
             int_of_double (if a >? lit 0.0 then a + lit 0.5 else a - lit 0.5) |}
    | FtoiOldMSVC => {| fast_ftoi_b := fistp a |}
    | FtoiLrint => {| fast_ftoi_b := lrintf a |}
    end in
  (fast_ftoi_b st, st).

End WithExternals.
End FastFtoi.

(* ================================================================== *)
(** * Predicates used in the statements *)

Module PowerOfTwoSpec.
Local Open Scope Z_scope.

(** [r] is the smallest power of two that is at least [x]. *)
Definition smallest_pow2_geq (x r : Z) : Prop :=
  exists k, 0 <= k /\ r = 2 ^ k /\ x <= r /\
            forall j, 0 <= j -> x <= 2 ^ j -> r <= 2 ^ j.

(** [covers w y y']: bit [i] of [y'] is set exactly when one of the [w]
    bits [i, i+1, ..., i+w-1] of [y] is set. *)
Definition covers (w y y' : Z) : Prop :=
  forall i, 0 <= i ->
    (Z.testbit y' i = true <-> exists j, 0 <= j < w /\ Z.testbit y (i + j) = true).

(** [r] is the largest power of two that is at most [x]. *)
Definition largest_pow2_leq (x r : Z) : Prop :=
  exists k, 0 <= k /\ r = 2 ^ k /\ r <= x /\
            forall j, 0 <= j -> 2 ^ j <= x -> 2 ^ j <= r.

(** Byte [k] of [x], byte 0 being the least significant. *)
Definition byte_of (x k : Z) : Z := Z.shiftr x (8 * k) mod 2 ^ 8.
End PowerOfTwoSpec.


(* ================================================================== *)
(** * Sanity checks of the binary64 instance

    The conversion of literals agrees with the rounding of Rocq's own
    parser of floating-point literals, and [c_fmod] with the C library. *)

Module Binary64Tests.
Import Binary64.
Local Open Scope float_scope.
Example double_of_Q_one_tenth : double_of_Q 0.1 = 0.1.
Proof. vm_compute. reflexivity. Qed.
Example double_of_Q_tau : double_of_Q 6.2831853071795864769252867666 = 0x1.921fb54442d18p+2.
Proof. vm_compute. reflexivity. Qed.
Example double_of_Q_1em7 : double_of_Q 1e-7 = 1e-7.
Proof. vm_compute. reflexivity. Qed.
Example double_of_Q_1e10 : double_of_Q 1e10 = 1e10.
Proof. vm_compute. reflexivity. Qed.
Example float_of_Q_cmp_epsilon : float_of_Q 0.00001 = 0x1.4f8b58p-17.
Proof. vm_compute. reflexivity. Qed.
Example double_of_Q_1em3 : double_of_Q 0.001 = 0.001.
Proof. vm_compute. reflexivity. Qed.
Example double_of_Q_minus_pi : double_of_Q (-3.1415926535897932384626433833) = -0x1.921fb54442d18p+1.
Proof. vm_compute. reflexivity. Qed.
Example double_of_Q_subnormal : double_of_Q 1e-320 = 1e-320.
Proof. vm_compute. reflexivity. Qed.
Example double_of_Q_1e300 : double_of_Q 1e300 = 1e300.
Proof. vm_compute. reflexivity. Qed.
Example double_of_Q_three_tenths : double_of_Q 0.3 = 0.3.
Proof. vm_compute. reflexivity. Qed.
Example double_of_Q_tie_down : double_of_Q 9007199254740993 = 9007199254740992.
Proof. vm_compute. reflexivity. Qed.
Example double_of_Q_tie_up : double_of_Q 9007199254740995 = 9007199254740996.
Proof. vm_compute. reflexivity. Qed.
Example c_fmod_negative_dividend : c_fmod (-5.5) 2 = -1.5.
Proof. vm_compute. reflexivity. Qed.
Example c_fmod_signed_zero : c_fmod (-6) 3 = neg_zero.
Proof. vm_compute. reflexivity. Qed.
Example c_fmod_large_dividend : c_fmod 1e300 0.1 = 0x1.d66e81bc37800p-14.
Proof. vm_compute. reflexivity. Qed.
Example to_Q_three_quarters : option_map Qred (to_Q 0.75) = Some (3 # 4)%Q.
Proof. vm_compute. reflexivity. Qed.
End Binary64Tests.

(* ================================================================== *)
(** * Facts about the machine integers *)

Module MachineIntFacts.
Local Open Scope Z_scope.

Lemma wrap32_in_range z : UInt32.in_range (UInt32.wrap z).
Proof. unfold UInt32.in_range, UInt32.wrap, UInt32.modulus. apply Z.mod_pos_bound. lia. Qed.

Lemma wrap32_small z : UInt32.in_range z -> UInt32.wrap z = z.
Proof. unfold UInt32.in_range, UInt32.wrap. intros H. now apply Z.mod_small. Qed.

Lemma wrap64_small z : Int64.in_range z -> Int64.wrap z = z.
Proof.
  unfold Int64.in_range, Int64.wrap, Int64.min_int, Int64.max_int. intros H.
  rewrite Z.mod_small by lia. lia.
Qed.

Lemma wrap64_in_range z : Int64.in_range (Int64.wrap z).
Proof.
  unfold Int64.in_range, Int64.wrap, Int64.min_int, Int64.max_int.
  pose proof (Z.mod_pos_bound (z + 2 ^ 63) (2 ^ 64) ltac:(lia)). lia.
Qed.
End MachineIntFacts.


(* ================================================================== *)
(** * Powers of two *)


Module BitUtilsFacts.
Local Open Scope Z_scope.
Import UInt32 BitUtils PowerOfTwoSpec MachineIntFacts.

(** ** What the shift-or cascade computes *)

Lemma covers_init y : covers 1 y y.
Proof.
  intros i Hi. split.
  - intros H. exists 0. split; [lia|]. now rewrite Z.add_0_r.
  - intros (j & Hj & H). replace (i + j) with i in H by lia. exact H.
Qed.

Lemma covers_step w y y' :
  0 < w -> covers w y y' -> covers (2 * w) y (Z.lor y' (Z.shiftr y' w)).
Proof.
  intros Hw Hc i Hi.
  rewrite Z.lor_spec, Z.shiftr_spec, orb_true_iff by assumption.
  rewrite (Hc i Hi), (Hc (i + w)) by lia. split.
  - intros [(j & Hj & H) | (j & Hj & H)].
    + exists j. split; [lia | exact H].
    + exists (w + j). split; [lia |]. now rewrite Z.add_assoc.
  - intros (j & Hj & H). destruct (Z.lt_ge_cases j w) as [Hlt | Hge].
    + left. exists j. split; [lia | exact H].
    + right. exists (j - w). split; [lia |].
      now replace (i + w + (j - w)) with (i + j) by lia.
Qed.

Lemma covers_smear y : covers 32 y (smear y).
Proof.
  unfold smear.
  apply (covers_step 16 y); [lia |].
  apply (covers_step 8 y); [lia |].
  apply (covers_step 4 y); [lia |].
  apply (covers_step 2 y); [lia |].
  apply (covers_step 1 y); [lia |].
  apply covers_init.
Qed.

Lemma smear_0 : smear 0 = 0.
Proof. reflexivity. Qed.

Lemma smear_ones y :
  0 < y < modulus -> smear y = Z.ones (Z.log2 y + 1).
Proof.
  intros [Hpos Hlt]. unfold modulus in Hlt.
  pose proof (Z.log2_nonneg y) as Hh0.
  assert (Hh : Z.log2 y < 32) by (apply Z.log2_lt_pow2; lia).
  apply Z.bits_inj'. intros i Hi.
  destruct (Z.le_gt_cases i (Z.log2 y)) as [Hle | Hgt].
  - rewrite Z.ones_spec_low by lia.
    apply (covers_smear y i Hi). exists (Z.log2 y - i). split; [lia |].
    replace (i + (Z.log2 y - i)) with (Z.log2 y) by lia.
    now apply Z.bit_log2.
  - rewrite Z.ones_spec_high by lia.
    apply not_true_is_false. intros H.
    apply (covers_smear y i Hi) in H. destruct H as (j & Hj & H).
    rewrite Z.bits_above_log2 in H by lia. discriminate.
Qed.

Lemma smear_pow2 y :
  0 < y < modulus -> smear y = 2 ^ (Z.log2 y + 1) - 1.
Proof.
  intros H. rewrite (smear_ones y H), Z.ones_equiv. lia.
Qed.

(** ** [next_power_of_2] and [previous_power_of_2] in closed form *)

Lemma next_power_of_2_1 : next_power_of_2 1 = 1.
Proof. reflexivity. Qed.

Lemma next_power_of_2_log2_up x :
  1 < x <= 2 ^ 31 -> next_power_of_2 x = 2 ^ Z.log2_up x.
Proof.
  intros [H1 H2]. unfold next_power_of_2.
  destruct (Z.eqb_spec x 0) as [-> | _]; [lia |].
  rewrite (wrap32_small (x - 1)) by (unfold in_range, modulus; lia).
  rewrite smear_pow2 by (unfold modulus; lia).
  assert (Hup : Z.log2_up x = Z.log2 (x - 1) + 1).
  { unfold Z.log2_up. destruct (Z.compare_spec 1 x); try lia.
    now rewrite Z.sub_1_r. }
  rewrite <- Hup.
  replace (2 ^ Z.log2_up x - 1 + 1) with (2 ^ Z.log2_up x) by lia.
  apply wrap32_small. unfold in_range, modulus.
  assert (Z.log2_up x <= 31).
  { replace 31 with (Z.log2_up (2 ^ 31)) by reflexivity.
    apply Z.log2_up_le_mono. lia. }
  pose proof (Z.log2_up_nonneg x).
  assert (2 ^ Z.log2_up x <= 2 ^ 31) by (apply Z.pow_le_mono_r; lia).
  lia.
Qed.

Lemma previous_power_of_2_log2 x :
  0 < x < modulus -> previous_power_of_2 x = 2 ^ Z.log2 x.
Proof.
  intros H. unfold previous_power_of_2.
  rewrite (smear_pow2 x H). cbv zeta.
  pose proof (Z.log2_nonneg x) as Hh0.
  rewrite Z.shiftr_div_pow2 by lia.
  rewrite Z.pow_add_r by lia. change (2 ^ 1) with 2.
  replace ((2 ^ Z.log2 x * 2 - 1) / 2) with (2 ^ Z.log2 x - 1).
  2:{ apply Z.div_unique with (r := 1); lia. }
  assert (Hlt : Z.log2 x < 32) by (apply Z.log2_lt_pow2; unfold modulus in H; lia).
  assert (2 ^ Z.log2 x <= 2 ^ 31) by (apply Z.pow_le_mono_r; lia).
  replace (2 ^ Z.log2 x * 2 - 1 - (2 ^ Z.log2 x - 1)) with (2 ^ Z.log2 x) by lia.
  apply wrap32_small. unfold in_range, modulus. lia.
Qed.

Lemma previous_power_of_2_0 : previous_power_of_2 0 = 0.
Proof. reflexivity. Qed.

(** ** Smallest power of two above a number *)

Lemma smallest_pow2_geq_log2_up x :
  0 < x -> smallest_pow2_geq x (2 ^ Z.log2_up x).
Proof.
  intros Hx. exists (Z.log2_up x). split; [apply Z.log2_up_nonneg |].
  split; [reflexivity |].
  destruct (Z.eq_dec x 1) as [-> | Hne].
  - split; [cbn; lia |]. intros j Hj _. change (Z.log2_up 1) with 0.
    apply Z.pow_le_mono_r; lia.
  - assert (H1 : 1 < x) by lia.
    destruct (Z.log2_up_spec x H1) as [Hlo Hhi].
    split; [exact Hhi |]. intros j Hj Hxj.
    apply Z.pow_le_mono_r; [lia |].
    destruct (Z.le_gt_cases (Z.log2_up x) j) as [Hle | Hgt]; [exact Hle |].
    exfalso.
    assert (2 ^ j <= 2 ^ Z.pred (Z.log2_up x)) by (apply Z.pow_le_mono_r; lia).
    lia.
Qed.

Lemma next_power_of_2_is_smallest x :
  0 < x <= 2 ^ 31 -> smallest_pow2_geq x (next_power_of_2 x).
Proof.
  intros [Hpos Hle].
  destruct (Z.eq_dec x 1) as [-> | Hne].
  - rewrite next_power_of_2_1. apply (smallest_pow2_geq_log2_up 1). lia.
  - rewrite next_power_of_2_log2_up by lia.
    apply smallest_pow2_geq_log2_up. lia.
Qed.

Lemma power_of_2_bracket x :
  0 <= x <= 2 ^ 31 ->
  previous_power_of_2 x <= x <= next_power_of_2 x
  /\ next_power_of_2 x <= 2 ^ 31.
Proof.
  intros [H0 H1].
  destruct (Z.eq_dec x 0) as [-> | Hx0]; [cbn; lia |].
  rewrite previous_power_of_2_log2 by (unfold modulus; lia).
  destruct (Z.log2_spec x ltac:(lia)) as [Hlo _].
  destruct (next_power_of_2_is_smallest x ltac:(lia))
    as (k & Hk & Hnx & Hge & Hmin).
  split; [lia |]. apply (Hmin 31); lia.
Qed.

End BitUtilsFacts.

Module PowerOfTwoClaims.
Local Open Scope Z_scope.
Import UInt32 BitUtils PowerOfTwoSpec MachineIntFacts BitUtilsFacts.

(** C8, as amended: for every [x] with [0 < x <= 2^31], [next_power_of_2 x]
    is the smallest power of two greater than or equal to [x];
    [next_power_of_2 0 = 0], [next_power_of_2 5 = 8] and
    [next_power_of_2 8 = 8]. *)
Theorem next_power_of_2_smallest :
  (forall x, 0 < x <= 2 ^ 31 -> smallest_pow2_geq x (next_power_of_2 x))
  /\ next_power_of_2 0 = 0
  /\ next_power_of_2 5 = 8
  /\ next_power_of_2 8 = 8.
Proof.
  split; [| repeat split; reflexivity].
  intros x [Hpos Hle].
  destruct (Z.eq_dec x 1) as [-> | Hne].
  - rewrite next_power_of_2_1. apply (smallest_pow2_geq_log2_up 1). lia.
  - rewrite next_power_of_2_log2_up by lia.
    apply smallest_pow2_geq_log2_up. lia.
Qed.

Lemma next_power_of_2_smallest_witness :
  0 < 1000 <= 2 ^ 31 /\ smallest_pow2_geq 1000 (next_power_of_2 1000).
Proof.
  split; [lia |]. apply (proj1 next_power_of_2_smallest 1000). lia.
Defined.

(** C8, the claim as stated fails above [2^31]: the increment wraps to [0],
    which is not a power of two and is smaller than [x]. *)
Lemma next_power_of_2_wraps_above_2_31 :
  in_range (2 ^ 31 + 1)
  /\ next_power_of_2 (2 ^ 31 + 1) = 0
  /\ ~ smallest_pow2_geq (2 ^ 31 + 1) (next_power_of_2 (2 ^ 31 + 1)).
Proof.
  split; [unfold in_range, modulus; lia |].
  split; [reflexivity |].
  intros (k & _ & _ & Hge & _).
  change (next_power_of_2 (2 ^ 31 + 1)) with 0 in Hge. lia.
Qed.

(** C5, as amended: for every [x <= 2^31], [closest_power_of_2 x] is
    whichever of [next_power_of_2 x] and [previous_power_of_2 x] is strictly
    nearer to [x], and on a tie it is the higher one, [next_power_of_2 x];
    [closest_power_of_2 5 = 4]. *)
Theorem closest_power_of_2_nearest :
  (forall x, 0 <= x <= 2 ^ 31 ->
     let nx := next_power_of_2 x in
     let px := previous_power_of_2 x in
     (Z.abs (px - x) < Z.abs (nx - x) -> closest_power_of_2 x = px)
     /\ (Z.abs (nx - x) < Z.abs (px - x) -> closest_power_of_2 x = nx)
     /\ (Z.abs (nx - x) = Z.abs (px - x) -> closest_power_of_2 x = nx))
  /\ closest_power_of_2 5 = 4.
Proof.
  split; [| reflexivity].
  intros x Hx nx px.
  destruct (power_of_2_bracket x Hx) as [[Hp Hn] Hn31].
  fold nx in Hn, Hn31. fold px in Hp.
  assert (Hp0 : 0 <= px) by (apply wrap32_in_range).
  unfold closest_power_of_2. fold nx px.
  rewrite (wrap32_small (nx - x)), (wrap32_small (x - px))
    by (unfold in_range, modulus; lia).
  destruct (Z.gtb_spec (nx - x) (x - px)); repeat split; intros; lia.
Qed.

Lemma closest_power_of_2_nearest_witness :
  0 <= 6 <= 2 ^ 31
  /\ Z.abs (next_power_of_2 6 - 6) = Z.abs (previous_power_of_2 6 - 6)
  /\ closest_power_of_2 6 = next_power_of_2 6.
Proof.
  split; [lia |]. split; [reflexivity |].
  apply (proj1 closest_power_of_2_nearest 6); [lia | reflexivity].
Defined.

(** C5, the claim as stated fails on a tie: [6] is at distance [2] from both
    [4] and [8], and the comparison [(nx - x) > (x - px)] being false selects
    the higher value [8], not [previous_power_of_2 6 = 4].  It also fails
    above [2^31], where [next_power_of_2] has wrapped to [0]: for
    [x = 3 * 2^30] the previous power [2^31] is nearer to [x] than [0] is,
    and the result is [0]. *)
Lemma closest_power_of_2_tie_goes_up :
  Z.abs (next_power_of_2 6 - 6) = Z.abs (previous_power_of_2 6 - 6)
  /\ previous_power_of_2 6 = 4
  /\ closest_power_of_2 6 = 8
  /\ closest_power_of_2 6 <> previous_power_of_2 6
  /\ Z.abs (previous_power_of_2 (3 * 2 ^ 30) - 3 * 2 ^ 30)
     < Z.abs (next_power_of_2 (3 * 2 ^ 30) - 3 * 2 ^ 30)
  /\ closest_power_of_2 (3 * 2 ^ 30) = 0
  /\ closest_power_of_2 (3 * 2 ^ 30) <> previous_power_of_2 (3 * 2 ^ 30).
Proof. repeat split; discriminate. Qed.

End PowerOfTwoClaims.

(* ================================================================== *)
(** * [wrapi] *)


Module WrapiClaims.
Local Open Scope Z_scope.
Import Int64 IntWrap MachineIntFacts.

(** C7, as amended: for all [int64_t] values with [max > min] such that
    [max - min], [value - min] and [(value - min) % range + range] are
    representable, [wrapi value min max] lies in [[min, max)] and is
    congruent to [value] modulo [max - min]; when [max = min] the result is
    [min], in particular [wrapi x 5 5 = 5]. *)
Theorem wrapi_range_and_congruence :
  (forall value min max,
     in_range value -> in_range min -> in_range max -> min < max ->
     in_range (max - min) -> in_range (value - min) ->
     in_range (Z.rem (value - min) (max - min) + (max - min)) ->
     min <= wrapi value min max < max
     /\ (wrapi value min max - value) mod (max - min) = 0)
  /\ (forall x m, wrapi x m m = m)
  /\ (forall x, wrapi x 5 5 = 5).
Proof.
  assert (Hdeg : forall x m, wrapi x m m = m).
  { intros x m. unfold wrapi. rewrite Z.sub_diag. reflexivity. }
  split; [| split; [exact Hdeg | intros x; apply Hdeg]].
  intros value min max Hv Hmin Hmax Hlt Hrange Hvm Hsum.
  unfold wrapi.
  rewrite (wrap64_small (max - min) Hrange).
  rewrite (wrap64_small (value - min) Hvm).
  destruct (Z.eqb_spec (max - min) 0) as [H0 | _]; [lia |].
  rewrite (wrap64_small _ Hsum).
  set (range := max - min) in *.
  set (r1 := Z.rem (value - min) range) in *.
  assert (Hr1 : - range < r1 < range).
  { pose proof (Z.rem_bound_abs (value - min) range ltac:(lia)). unfold r1. lia. }
  set (r2 := Z.rem (r1 + range) range).
  assert (Hr2 : 0 <= r2 < range).
  { apply Z.rem_bound_pos; lia. }
  rewrite wrap64_small by (unfold in_range, min_int, max_int in *; lia).
  split; [unfold range in *; lia |].
  assert (E1 : value - min = range * Z.quot (value - min) range + r1).
  { apply Z.quot_rem'. }
  assert (E2 : r1 + range = range * Z.quot (r1 + range) range + r2).
  { apply Z.quot_rem'. }
  replace (min + r2 - value)
    with ((1 - Z.quot (r1 + range) range - Z.quot (value - min) range) * range)
    by lia.
  apply Z.mod_mul. lia.
Qed.

Lemma wrapi_range_and_congruence_witness :
  3 < 10
  /\ 3 <= wrapi (-7) 3 10 < 10
  /\ (wrapi (-7) 3 10 - (-7)) mod (10 - 3) = 0.
Proof.
  split; [lia |].
  apply (proj1 wrapi_range_and_congruence (-7) 3 10);
    unfold in_range, min_int, max_int; cbn; lia.
Defined.

(** C7, the claim as stated fails when an intermediate result is not
    representable.  With [min = -2^62] and [max = 2^62] the range wraps to
    [-2^63] and the result [-2^63] is below [min].  With [value = 2^63 - 1],
    [min = -10], [max = 0] the difference [value - min] wraps and the
    result [-9] is not congruent to [value] modulo 10.  With [min = 0],
    [max = 3 * 2^61] and [value = max - 1] the sum of the remainder and the
    range wraps and the result is negative. *)
Lemma wrapi_range_overflow :
  (in_range 0 /\ in_range (- 2 ^ 62) /\ in_range (2 ^ 62)
   /\ - 2 ^ 62 < 2 ^ 62
   /\ wrapi 0 (- 2 ^ 62) (2 ^ 62) = - 2 ^ 63
   /\ ~ (- 2 ^ 62 <= wrapi 0 (- 2 ^ 62) (2 ^ 62) < 2 ^ 62))
  /\ (in_range (2 ^ 63 - 1)
      /\ wrapi (2 ^ 63 - 1) (- 10) 0 = - 9
      /\ (wrapi (2 ^ 63 - 1) (- 10) 0 - (2 ^ 63 - 1)) mod (0 - - 10) <> 0)
  /\ (in_range (3 * 2 ^ 61)
      /\ wrapi (3 * 2 ^ 61 - 1) 0 (3 * 2 ^ 61) = - 2 ^ 62 - 1
      /\ ~ (0 <= wrapi (3 * 2 ^ 61 - 1) 0 (3 * 2 ^ 61) < 3 * 2 ^ 61)).
Proof.
  unfold in_range, min_int, max_int.
  change (wrapi 0 (- 2 ^ 62) (2 ^ 62)) with (- 2 ^ 63).
  change (wrapi (2 ^ 63 - 1) (- 10) 0) with (- 9).
  change (wrapi (3 * 2 ^ 61 - 1) 0 (3 * 2 ^ 61)) with (- 2 ^ 62 - 1).
  repeat split; try lia.
  vm_compute. discriminate.
Qed.

End WrapiClaims.

(* ================================================================== *)
(** * Properties of the exact remainder *)

Module ExactFacts.
Import Exact.
Local Open Scope Q_scope.






End ExactFacts.

Module AngleFacts.
Import Exact ExactFacts.
Local Open Scope Q_scope.



End AngleFacts.

Module AngleClaims.
Import Exact Binary64 Math AngleFacts.
Local Open Scope Q_scope.



End AngleClaims.

Module RemainderClaims.
Import Exact Binary64 Math ExactFacts.
Local Open Scope Q_scope.




End RemainderClaims.

Module ApproxClaims.
Import Exact Binary64 Math.

(** C2: [is_equal_approx a b] is true exactly when [a == b] or
    [|a - b| < max(CMP_EPSILON, CMP_EPSILON * |a|)], for every scalar type;
    two infinities of the same sign are equal; the tolerance follows the
    first operand only, so the test is not symmetric; and
    [is_equal_approx(1e10, 1e10 + 0.5)] is true. *)
Theorem is_equal_approx_characterisation :
  (forall (T : Type) (ST : Scalar T) (cfg : BuildConfig) (a b : T),
     is_equal_approx cfg a b
     = (eqb a b
        || ltb (abs (sub a b)) (max (CMP_EPSILON cfg) (mul (CMP_EPSILON cfg) (abs a)))))
  /\ (forall cfg,
        is_equal_approx (T := float) cfg PrimFloat.infinity PrimFloat.infinity = true
        /\ is_equal_approx (T := float) cfg PrimFloat.neg_infinity PrimFloat.neg_infinity = true
        /\ is_equal_approx (T := float) cfg PrimFloat.infinity PrimFloat.neg_infinity = false)
  /\ (forall cfg,
        is_equal_approx (T := float) cfg (lit 1e10) (add (lit 1e10) (lit 0.5)) = true
        /\ is_equal_approx (T := Q) cfg 1e10 (1e10 + 0.5) = true)
  /\ (forall cfg,
        is_equal_approx (T := Q) cfg 1 (1 + 0.00001) = false
        /\ is_equal_approx (T := Q) cfg (1 + 0.00001) 1 = true).
Proof.
  split; [| split; [| split]].
  - intros T ST cfg a b. unfold is_equal_approx, max.
    destruct (eqb a b); reflexivity.
  - intros cfg. repeat split; vm_compute; reflexivity.
  - intros cfg. split; vm_compute; reflexivity.
  - intros cfg. split; vm_compute; reflexivity.
Qed.

(** C6, as amended: [is_equal_approx(0.0, 1e-7)] is true under both
    configurations.  The epsilon of the approximate tests is
    [CMP_EPSILON = 0.00001f] whatever the configuration, so the tests do not
    depend on it; the switch [PRECISE_MATH_CHECKS] selects [UNIT_EPSILON]
    only (0.00001 when defined, 0.001 otherwise). *)
Theorem approx_tests_ignore_configuration :
  (forall cfg, is_equal_approx (T := float) cfg (lit 0.0) (lit 1e-7) = true)
  /\ (forall (T : Type) (ST : Scalar T) (cfg cfg' : BuildConfig) (a b : T),
        CMP_EPSILON (T := T) cfg = litf 0.00001
        /\ is_equal_approx cfg a b = is_equal_approx cfg' a b
        /\ is_zero_approx cfg a = is_zero_approx cfg' a)
  /\ UNIT_EPSILON (T := float) precise_config = lit 0.00001
  /\ UNIT_EPSILON (T := float) tolerant_config = lit 0.001
  /\ ltb (lit 1e-7) (CMP_EPSILON (T := float) precise_config) = true.
Proof.
  split; [| split; [| split; [| split]]].
  - intros cfg. vm_compute. reflexivity.
  - intros T ST cfg cfg' a b. split; [| split]; reflexivity.
  - vm_compute. reflexivity.
  - vm_compute. reflexivity.
  - vm_compute. reflexivity.
Qed.

(** C6, the claim as stated fails: with [PRECISE_MATH_CHECKS] defined the
    test still returns true on [0.0] and [1e-7], because [1e-7] is below
    [CMP_EPSILON]. *)
Lemma is_equal_approx_true_under_precise_config :
  is_equal_approx (T := float) precise_config (lit 0.0) (lit 1e-7) = true
  /\ is_equal_approx (T := float) precise_config (lit 0.0) (lit 1e-7) <> false.
Proof.
  split; [vm_compute; reflexivity |].
  vm_compute. discriminate.
Qed.

End ApproxClaims.

Module InterpolationFacts.
Import Exact Binary64 Math.

Section Guards.
Context {T : Type} {ST : Scalar T}.

(** Negation does not change whether a scalar compares equal to zero. *)
Hypothesis opp_eqb_zero : forall x : T, eqb (opp x) (lit 0) = eqb x (lit 0).

Lemma checked_div_nonzero (x y : T) :
  eqb y (lit 0) = false -> checked_div x y = Some (div x y).
Proof. intros H. unfold checked_div. now rewrite H. Qed.

Lemma ratio_pre_defined (t p_pre_t : T) : exists w, ratio_pre t p_pre_t = Some w.
Proof.
  unfold ratio_pre. destruct (eqb p_pre_t (lit 0)) eqn:E; [eauto |].
  rewrite checked_div_nonzero by (now rewrite opp_eqb_zero). eauto.
Qed.

Lemma ratio_to_defined (t p_to_t : T) : exists w, ratio_to t p_to_t = Some w.
Proof.
  unfold ratio_to. destruct (eqb p_to_t (lit 0)) eqn:E; [eauto |].
  rewrite checked_div_nonzero by assumption. eauto.
Qed.

Lemma ratio_to_post_defined (t p_to_t p_post_t : T) :
  exists w, ratio_to_post t p_to_t p_post_t = Some w.
Proof.
  unfold ratio_to_post. destruct (eqb (sub p_post_t p_to_t) (lit 0)) eqn:E; [eauto |].
  rewrite checked_div_nonzero by assumption. eauto.
Qed.

Lemma ratio_pre_to_defined (t p_to_t p_pre_t : T) :
  exists w, ratio_pre_to t p_to_t p_pre_t = Some w.
Proof.
  unfold ratio_pre_to. destruct (eqb (sub p_to_t p_pre_t) (lit 0)) eqn:E; [eauto |].
  rewrite checked_div_nonzero by assumption. eauto.
Qed.

Lemma ratio_post_defined (t p_post_t : T) : exists w, ratio_post t p_post_t = Some w.
Proof.
  unfold ratio_post. destruct (eqb p_post_t (lit 0)) eqn:E; [eauto |].
  rewrite checked_div_nonzero by assumption. eauto.
Qed.

Lemma cubic_interpolate_in_time_defined
    (p_from p_to p_pre p_post p_weight p_to_t p_pre_t p_post_t : T) :
  exists r,
    cubic_interpolate_in_time p_from p_to p_pre p_post p_weight p_to_t p_pre_t p_post_t
    = Some r.
Proof.
  unfold cubic_interpolate_in_time. cbv zeta.
  set (t := lerp (lit 0.0) p_to_t p_weight).
  destruct (ratio_pre_defined t p_pre_t) as [w1 ->]. cbn [bind].
  destruct (ratio_to_defined t p_to_t) as [w2 ->]. cbn [bind].
  destruct (ratio_to_post_defined t p_to_t p_post_t) as [w3 ->]. cbn [bind].
  destruct (ratio_pre_to_defined t p_to_t p_pre_t) as [w4 ->]. cbn [bind].
  destruct (ratio_post_defined t p_post_t) as [w5 ->]. cbn [bind].
  eauto.
Qed.

End Guards.

Lemma float_opp_eqb_zero (x : float) :
  eqb (opp x) (lit 0) = eqb x (lit 0).
Proof.
  change (PrimFloat.eqb (PrimFloat.opp x) PrimFloat.zero = PrimFloat.eqb x PrimFloat.zero).
  rewrite !FloatAxioms.eqb_spec, FloatAxioms.opp_spec.
  change (Prim2SF PrimFloat.zero) with (S754_zero false).
  destruct (Prim2SF x) as [s | s | | s m e]; try destruct s; reflexivity.
Qed.

Lemma Q_opp_eqb_zero (x : Q) :
  eqb (opp x) (lit 0) = eqb x (lit 0).
Proof.
  destruct x as [n d]. cbn. unfold Qeq_bool. cbn. destruct n; reflexivity.
Qed.

End InterpolationFacts.

Module InterpolationClaims.
Import Exact Binary64 Math InterpolationFacts.

(** C3: on every input, in binary64 and in exact arithmetic,
    [cubic_interpolate_in_time] returns a result without evaluating a
    division whose denominator is zero; when [pre_t == 0], [to_t == 0] or
    [post_t - to_t == 0] the corresponding blend ratio is the constant
    [0.0], [0.5] or [1.0]; with all time spans zero the result is defined. *)
Theorem cubic_interpolate_in_time_never_divides_by_zero :
  (forall p_from p_to p_pre p_post p_weight p_to_t p_pre_t p_post_t : float,
     exists r,
       cubic_interpolate_in_time p_from p_to p_pre p_post p_weight p_to_t p_pre_t p_post_t
       = Some r)
  /\ (forall p_from p_to p_pre p_post p_weight p_to_t p_pre_t p_post_t : Q,
        exists r,
          cubic_interpolate_in_time p_from p_to p_pre p_post p_weight p_to_t p_pre_t p_post_t
          = Some r)
  /\ (forall (T : Type) (ST : Scalar T) (t p_to_t p_pre_t p_post_t : T),
        (eqb p_pre_t (lit 0) = true -> ratio_pre t p_pre_t = Some (lit 0.0))
        /\ (eqb p_to_t (lit 0) = true -> ratio_to t p_to_t = Some (lit 0.5))
        /\ (eqb (sub p_post_t p_to_t) (lit 0) = true ->
            ratio_to_post t p_to_t p_post_t = Some (lit 1.0)))
  /\ cubic_interpolate_in_time (T := float)
       (lit 1) (lit 2) (lit 3) (lit 4) (lit 0.3) (lit 0) (lit 0) (lit 0)
     = Some (lit 3.5).
Proof.
  split; [| split; [| split]].
  - intros. apply cubic_interpolate_in_time_defined. exact float_opp_eqb_zero.
  - intros. apply cubic_interpolate_in_time_defined. exact Q_opp_eqb_zero.
  - intros T ST t p_to_t p_pre_t p_post_t.
    unfold ratio_pre, ratio_to, ratio_to_post.
    split; [| split]; intros ->; reflexivity.
  - vm_compute. reflexivity.
Qed.

Lemma cubic_interpolate_in_time_never_divides_by_zero_witness :
  eqb (T := float) PrimFloat.neg_zero (lit 0) = true
  /\ ratio_pre (T := float) (lit 0.25) PrimFloat.neg_zero = Some (lit 0.0).
Proof.
  split; [vm_compute; reflexivity |].
  apply (proj1 (proj1 (proj2 (proj2 cubic_interpolate_in_time_never_divides_by_zero))
                  float float_Scalar (lit 0.25) (lit 0) PrimFloat.neg_zero (lit 0))).
  vm_compute. reflexivity.
Defined.

End InterpolationClaims.

Module EndpointClaims.
Import Exact Binary64 Math.
Local Open Scope Q_scope.






End EndpointClaims.

Module FastFtoiClaims.
Import Math FastFtoi.

(** C9, as amended: the value returned by [fast_ftoi] is a function of its
    argument (and of the build configuration) alone, whatever the static
    storage holds before the call; but every call stores its result in the
    function-local [static int b], which persists across calls. *)
Theorem fast_ftoi_result_pure_but_static_written :
  forall (T : Type) (ST : Scalar T) (lrintf fistp int_of_double : T -> Z)
         (cfg : BuildConfig) (a : T) (st st' : Statics),
    fst (fast_ftoi lrintf fistp int_of_double cfg a st)
    = fst (fast_ftoi lrintf fistp int_of_double cfg a st')
    /\ snd (fast_ftoi lrintf fistp int_of_double cfg a st)
       = {| fast_ftoi_b := fst (fast_ftoi lrintf fistp int_of_double cfg a st) |}
    /\ fst (fast_ftoi lrintf fistp int_of_double
               {| PRECISE_MATH_CHECKS := PRECISE_MATH_CHECKS cfg;
                  ftoi_branch := FtoiLrint |} a st)
       = lrintf a.
Proof.
  intros T ST lrintf fistp int_of_double cfg a st st'.
  unfold fast_ftoi. destruct (ftoi_branch cfg); cbn; repeat split.
Qed.

(** C9, the claim as stated fails: [fast_ftoi] keeps its scratch variable in
    static storage and writes it.  Whatever the conversions compute, there
    is no configuration and no argument for which every call leaves the
    static storage as it found it. *)
Lemma fast_ftoi_writes_static_storage :
  ~ (exists (T : Type) (ST : Scalar T) (lrintf fistp int_of_double : T -> Z)
            (cfg : BuildConfig) (a : T),
       forall st : Statics,
         snd (fast_ftoi lrintf fistp int_of_double cfg a st) = st).
Proof.
  intros (T & ST & lrintf & fistp & int_of_double & cfg & a & H).
  pose proof (H {| fast_ftoi_b := 0 |}) as H0.
  pose proof (H {| fast_ftoi_b := 1 |}) as H1.
  unfold fast_ftoi in H0, H1. cbn in H0, H1.
  rewrite H0 in H1. discriminate.
Qed.

End FastFtoiClaims.
(* ================================================================== *)
(** * Further properties: shifts and bit counts *)

Module ShiftFacts.
Local Open Scope Z_scope.
Import UInt32 BitUtils PowerOfTwoSpec MachineIntFacts BitUtilsFacts.

Lemma wrap_pow2 i : 0 <= i < 32 -> wrap (Z.shiftl 1 i) = 2 ^ i.
Proof.
  intros Hi. rewrite Z.shiftl_1_l. apply wrap32_small.
  unfold in_range, modulus. split; [apply Z.pow_nonneg; lia |].
  apply Z.pow_lt_mono_r; lia.
Qed.

(** The loop returns the first index in [[i, i + n)] whose power of two is
    [p_bits], and [-1] when there is none. *)
Lemma get_shift_loop_spec n : forall i p_bits,
  0 <= i -> i + Z.of_nat n <= 32 ->
  (get_shift_loop n i p_bits = -1
   /\ forall k, i <= k < i + Z.of_nat n -> p_bits <> 2 ^ k)
  \/ (i <= get_shift_loop n i p_bits < i + Z.of_nat n
      /\ p_bits = 2 ^ get_shift_loop n i p_bits).
Proof.
  induction n as [| n IH]; intros i p_bits Hi Hn.
  - left. split; [reflexivity |]. intros k Hk. lia.
  - cbn [get_shift_loop]. rewrite wrap_pow2 by lia.
    destruct (Z.eqb_spec p_bits (2 ^ i)) as [E | E].
    + right. split; [lia | exact E].
    + destruct (IH (i + 1) p_bits ltac:(lia) ltac:(lia)) as [[E1 H1] | [H1 E1]].
      * left. split; [exact E1 |]. intros k Hk.
        destruct (Z.eq_dec k i) as [-> | Hne]; [exact E |]. apply H1. lia.
      * right. split; [lia | exact E1].
Qed.

Lemma pow2_inj_range j k : 0 <= j -> 0 <= k -> 2 ^ j = 2 ^ k -> j = k.
Proof. intros Hj Hk E. apply (Z.pow_inj_r 2); lia. Qed.

Lemma land_pow2 p i :
  0 <= i -> Z.land p (2 ^ i) = if Z.testbit p i then 2 ^ i else 0.
Proof.
  intros Hi. apply Z.bits_inj'. intros j Hj.
  rewrite Z.land_spec, Z.pow2_bits_eqb by lia.
  destruct (Z.eqb_spec i j) as [-> | Hne].
  - destruct (Z.testbit p j) eqn:E; cbn.
    + now rewrite Z.pow2_bits_true.
    + now rewrite Z.testbit_0_l.
  - rewrite andb_false_r. destruct (Z.testbit p i).
    + now rewrite Z.pow2_bits_false.
    + now rewrite Z.testbit_0_l.
Qed.

Lemma testbit_true_ge p i : 0 <= p -> 0 <= i -> Z.testbit p i = true -> 2 ^ i <= p.
Proof.
  intros Hp Hi Hb.
  destruct (Z.eq_dec p 0) as [-> | Hne]; [rewrite Z.testbit_0_l in Hb; discriminate |].
  assert (i <= Z.log2 p).
  { destruct (Z.le_gt_cases i (Z.log2 p)) as [H | H]; [exact H |].
    rewrite Z.bits_above_log2 in Hb by lia. discriminate. }
  destruct (Z.log2_spec p ltac:(lia)) as [Hlo _].
  assert (2 ^ i <= 2 ^ Z.log2 p) by (apply Z.pow_le_mono_r; lia). lia.
Qed.

Lemma bits_above_lt p n :
  0 <= p -> 0 <= n -> (forall j, n <= j -> Z.testbit p j = false) -> p < 2 ^ n.
Proof.
  intros Hp Hn Hb.
  destruct (Z.lt_ge_cases p (2 ^ n)) as [H | H]; [exact H | exfalso].
  assert (Hpos : 0 < p) by (pose proof (Z.pow_pos_nonneg 2 n); lia).
  assert (n <= Z.log2 p) by (apply Z.log2_le_pow2; lia).
  pose proof (Z.bit_log2 p Hpos) as Hbit.
  rewrite (Hb (Z.log2 p)) in Hbit by lia. discriminate.
Qed.

(** With no bit set at position [n] or above, the loop yields the bit
    length of [p]. *)
Lemma nearest_shift_loop_spec n : forall p,
  0 <= p -> (forall j, Z.of_nat n <= j -> Z.testbit p j = false) ->
  nearest_shift_loop n p = if p =? 0 then 0 else Z.log2 p + 1.
Proof.
  induction n as [| n IH]; intros p Hp Hb.
  - assert (p < 2 ^ 0) by (apply bits_above_lt; [lia | lia | exact Hb]).
    assert (p = 0) by (cbn in *; lia). subst. reflexivity.
  - cbn [nearest_shift_loop]. rewrite Z.shiftl_1_l.
    rewrite land_pow2 by lia.
    destruct (Z.testbit p (Z.of_nat n)) eqn:Hbit.
    + assert (Hge : 2 ^ Z.of_nat n <= p) by (apply testbit_true_ge; [lia | lia | exact Hbit]).
      assert (Hlt : p < 2 ^ (Z.of_nat n + 1)).
      { apply bits_above_lt; [lia | lia |]. intros j Hj. apply Hb. lia. }
      assert (Hpow : 0 < 2 ^ Z.of_nat n) by (apply Z.pow_pos_nonneg; lia).
      destruct (Z.eqb_spec (2 ^ Z.of_nat n) 0) as [E | _]; [lia |].
      destruct (Z.eqb_spec p 0) as [E | _]; [lia |].
      rewrite (Z.log2_unique p (Z.of_nat n)); [lia | lia |].
      split; [exact Hge |]. rewrite <- Z.add_1_r. exact Hlt.
    + cbn [Z.eqb]. apply IH; [exact Hp |]. intros j Hj.
      destruct (Z.eq_dec j (Z.of_nat n)) as [-> | Hne]; [exact Hbit |].
      apply Hb. lia.
Qed.

Lemma nearest_shift_loop_low_bits n : forall p,
  (Z.of_nat n <= 31)%Z ->
  nearest_shift_loop n p = nearest_shift_loop n (p mod 2 ^ 31).
Proof.
  induction n as [| n IH]; intros p Hn; [reflexivity |].
  cbn [nearest_shift_loop]. rewrite Z.shiftl_1_l.
  rewrite !land_pow2 by lia.
  rewrite Z.mod_pow2_bits_low by lia.
  rewrite <- IH by lia. reflexivity.
Qed.

Lemma floor_log2_pos_size p : floor_log2_pos p = Zpos (Pos.size p).
Proof.
  induction p as [q IH | q IH |]; cbn [floor_log2_pos Pos.size]; [| | reflexivity].
  - rewrite IH. lia.
  - rewrite IH. lia.
Qed.

Lemma floor_log2_pos_log2 p : floor_log2_pos p = Z.log2 (Zpos p) + 1.
Proof.
  rewrite floor_log2_pos_size. destruct p; cbn [Z.log2 Pos.size]; lia.
Qed.

End ShiftFacts.

Module ShiftProperties.
Local Open Scope Z_scope.
Import UInt32 BitUtils PowerOfTwoSpec MachineIntFacts BitUtilsFacts ShiftFacts.

(** X1: [get_shift_from_power_of_2] inverts [2^k] for [0 <= k < 32]; on
    every argument it either returns [-1], and then the argument is none of
    [2^0 .. 2^31], or returns the exponent of the argument. *)
Theorem get_shift_from_power_of_2_exponent :
  (forall k, 0 <= k < 32 -> get_shift_from_power_of_2 (2 ^ k) = k)
  /\ (forall p_bits,
        (get_shift_from_power_of_2 p_bits = -1
         /\ forall k, 0 <= k < 32 -> p_bits <> 2 ^ k)
        \/ (0 <= get_shift_from_power_of_2 p_bits < 32
            /\ p_bits = 2 ^ get_shift_from_power_of_2 p_bits)).
Proof.
  assert (Hspec : forall p_bits,
    (get_shift_from_power_of_2 p_bits = -1
     /\ forall k, 0 <= k < 32 -> p_bits <> 2 ^ k)
    \/ (0 <= get_shift_from_power_of_2 p_bits < 32
        /\ p_bits = 2 ^ get_shift_from_power_of_2 p_bits)).
  { intros p_bits. unfold get_shift_from_power_of_2.
    destruct (get_shift_loop_spec 32 0 p_bits) as [[E H] | [H E]]; cbn; try lia.
    - left. split; [exact E | exact H].
    - right. split; [cbn in H; lia | exact E]. }
  split; [| exact Hspec].
  intros k Hk. destruct (Hspec (2 ^ k)) as [[_ H] | [H E]].
  - exfalso. apply (H k Hk). reflexivity.
  - symmetry. apply pow2_inj_range; [lia | lia | exact E].
Qed.

Lemma get_shift_from_power_of_2_exponent_witness :
  0 <= 4 < 32 /\ get_shift_from_power_of_2 (2 ^ 4) = 4.
Proof.
  split; [lia |]. apply (proj1 get_shift_from_power_of_2_exponent 4). lia.
Defined.

(** X3: [nearest_shift] is the bit length of its argument when that is
    below [2^31]: [0] for [0], and otherwise the [s] with
    [2^(s-1) <= p < 2^s]; bit 31 of the argument is never looked at, so
    [nearest_shift (2^31) = 0]. *)
Theorem nearest_shift_bit_length :
  nearest_shift 0 = 0
  /\ (forall p, 0 < p < 2 ^ 31 ->
        2 ^ (nearest_shift p - 1) <= p < 2 ^ nearest_shift p)
  /\ (forall p, nearest_shift p = nearest_shift (p mod 2 ^ 31))
  /\ nearest_shift (2 ^ 31) = 0.
Proof.
  split; [reflexivity |]. split; [| split; [| reflexivity]].
  - intros p [Hpos Hlt]. unfold nearest_shift.
    rewrite nearest_shift_loop_spec; [| lia |].
    + destruct (Z.eqb_spec p 0) as [E | _]; [lia |].
      replace (Z.log2 p + 1 - 1) with (Z.log2 p) by lia.
      rewrite Z.add_1_r. apply Z.log2_spec. exact Hpos.
    + intros j Hj. apply Z.bits_above_log2; [lia |].
      assert (Z.log2 p < 31) by (apply Z.log2_lt_pow2; lia). cbn in Hj. lia.
  - intros p. unfold nearest_shift. apply nearest_shift_loop_low_bits. cbn. lia.
Qed.

Lemma nearest_shift_bit_length_witness :
  0 < 1000 < 2 ^ 31 /\ 2 ^ (nearest_shift 1000 - 1) <= 1000 < 2 ^ nearest_shift 1000.
Proof.
  split; [lia |]. apply (proj1 (proj2 nearest_shift_bit_length) 1000). lia.
Defined.

Lemma floor_log2_unfold x :
  floor_log2 x = if x <? 2 then x else 1 + floor_log2 (Z.shiftr x 1).
Proof.
  destruct x as [| p | p]; [reflexivity | | reflexivity].
  destruct p as [[q | q |] | [q | q |] |]; reflexivity.
Qed.

(** X4: [floor_log2] satisfies the recursion of the source,
    [x < 2 ? x : 1 + floor_log2(x >> 1)], and for a positive [x] its value
    is the number of bits of [x] (one more than the floored logarithm):
    [2^(r-1) <= x < 2^r].  [get_num_bits] agrees with [nearest_shift] below
    [2^31]. *)
Theorem floor_log2_is_bit_length :
  (forall x, floor_log2 x = if x <? 2 then x else 1 + floor_log2 (Z.shiftr x 1))
  /\ (forall x, 0 < x ->
        floor_log2 x = Z.log2 x + 1
        /\ 2 ^ (floor_log2 x - 1) <= x < 2 ^ floor_log2 x)
  /\ (forall x, 0 < x < 2 ^ 31 -> get_num_bits x = nearest_shift x).
Proof.
  assert (Hlog : forall x, 0 < x -> floor_log2 x = Z.log2 x + 1).
  { intros x Hx. destruct x as [| p | p]; try lia. apply floor_log2_pos_log2. }
  split; [exact floor_log2_unfold |]. split.
  - intros x Hx. split; [apply Hlog; exact Hx |]. rewrite (Hlog x Hx).
    replace (Z.log2 x + 1 - 1) with (Z.log2 x) by lia.
    rewrite Z.add_1_r. apply Z.log2_spec. exact Hx.
  - intros x [Hpos Hlt]. unfold get_num_bits, nearest_shift.
    rewrite (Hlog x Hpos).
    rewrite nearest_shift_loop_spec; [| lia |].
    + destruct (Z.eqb_spec x 0) as [E | _]; [lia | reflexivity].
    + intros j Hj. apply Z.bits_above_log2; [lia |].
      assert (Z.log2 x < 31) by (apply Z.log2_lt_pow2; lia). cbn in Hj. lia.
Qed.

Lemma floor_log2_is_bit_length_witness :
  0 < 8 /\ floor_log2 8 = Z.log2 8 + 1 /\ 2 ^ (floor_log2 8 - 1) <= 8 < 2 ^ floor_log2 8.
Proof.
  split; [lia |]. apply (proj1 (proj2 floor_log2_is_bit_length) 8). lia.
Defined.

(** X5: for every [x] with [0 < x < 2^32], [previous_power_of_2 x] is the
    largest power of two that is at most [x]; [previous_power_of_2 0 = 0]. *)
Theorem previous_power_of_2_largest :
  (forall x, 0 < x < 2 ^ 32 -> largest_pow2_leq x (previous_power_of_2 x))
  /\ previous_power_of_2 0 = 0.
Proof.
  split; [| reflexivity].
  intros x Hx. rewrite previous_power_of_2_log2 by (unfold modulus; lia).
  destruct (Z.log2_spec x ltac:(lia)) as [Hlo Hhi].
  exists (Z.log2 x). split; [apply Z.log2_nonneg |].
  split; [reflexivity |]. split; [exact Hlo |].
  intros j Hj Hjx. apply Z.pow_le_mono_r; [lia |].
  destruct (Z.le_gt_cases j (Z.log2 x)) as [H | H]; [exact H | exfalso].
  assert (2 ^ Z.succ (Z.log2 x) <= 2 ^ j) by (apply Z.pow_le_mono_r; lia).
  lia.
Qed.

Lemma previous_power_of_2_largest_witness :
  0 < 1000 < 2 ^ 32 /\ largest_pow2_leq 1000 (previous_power_of_2 1000).
Proof.
  split; [lia |]. apply (proj1 previous_power_of_2_largest 1000). lia.
Defined.

End ShiftProperties.

Module TemplatedPowerFacts.
Local Open Scope Z_scope.
Import UInt32 BitUtils PowerOfTwoSpec MachineIntFacts BitUtilsFacts ShiftFacts.

Lemma covers_smear_loop n : forall i y y',
  0 <= i -> covers (2 ^ i) y y' ->
  covers (2 ^ (i + Z.of_nat n)) y (smear_loop n i y').
Proof.
  induction n as [| n IH]; intros i y y' Hi Hc.
  - cbn [smear_loop]. replace (i + Z.of_nat 0) with i by lia. exact Hc.
  - cbn [smear_loop]. rewrite Z.shiftl_1_l.
    replace (i + Z.of_nat (S n)) with (i + 1 + Z.of_nat n) by lia.
    apply IH; [lia |].
    replace (2 ^ (i + 1)) with (2 * 2 ^ i) by (rewrite Z.pow_add_r by lia; lia).
    apply covers_step; [apply Z.pow_pos_nonneg; lia | exact Hc].
Qed.

Lemma covers_all_ones W y y' :
  covers W y y' -> 0 < y < 2 ^ W -> y' = Z.ones (Z.log2 y + 1).
Proof.
  intros Hc [Hpos Hlt].
  pose proof (Z.log2_nonneg y) as Hh0.
  assert (HW : 0 < W).
  { destruct (Z.lt_ge_cases 0 W) as [H | H]; [exact H | exfalso].
    assert (2 ^ W <= 1); [| lia].
    destruct (Z.eq_dec W 0) as [-> | Hne]; [cbn; lia |].
    rewrite Z.pow_neg_r by lia. lia. }
  assert (Hh : Z.log2 y < W) by (apply Z.log2_lt_pow2; lia).
  apply Z.bits_inj'. intros i Hi.
  destruct (Z.le_gt_cases i (Z.log2 y)) as [Hle | Hgt].
  - rewrite Z.ones_spec_low by lia.
    apply (Hc i Hi). exists (Z.log2 y - i). split; [lia |].
    replace (i + (Z.log2 y - i)) with (Z.log2 y) by lia.
    now apply Z.bit_log2.
  - rewrite Z.ones_spec_high by lia.
    apply not_true_is_false. intros H.
    apply (Hc i Hi) in H. destruct H as (j & Hj & H).
    rewrite Z.bits_above_log2 in H by lia. discriminate.
Qed.

Lemma covers_of_zero W y' : covers W 0 y' -> y' = 0.
Proof.
  intros Hc. apply Z.bits_inj'. intros i Hi. rewrite Z.testbit_0_l.
  apply not_true_is_false. intros H. apply (Hc i Hi) in H.
  destruct H as (j & _ & H). rewrite Z.testbit_0_l in H. discriminate.
Qed.

Lemma smear_loop_covers n y : covers (2 ^ Z.of_nat n) y (smear_loop n 0 y).
Proof.
  replace (2 ^ Z.of_nat n) with (2 ^ (0 + Z.of_nat n)) by (f_equal; lia).
  apply covers_smear_loop; [lia |]. change (2 ^ 0) with 1. apply covers_init.
Qed.

(** [n] rounds of shift-or handle words of [W = 2^n] bits. *)
Lemma rounds_smallest n W x :
  W = 2 ^ Z.of_nat n -> 0 < x <= 2 ^ (W - 1) ->
  smallest_pow2_geq x ((smear_loop n 0 ((x - 1) mod 2 ^ W) + 1) mod 2 ^ W).
Proof.
  intros HW [Hpos Hle].
  assert (HW1 : 1 <= W) by (subst W; pose proof (Z.pow_pos_nonneg 2 (Z.of_nat n)); lia).
  assert (Hpw : 2 ^ W = 2 * 2 ^ (W - 1)).
  { replace W with (1 + (W - 1)) at 1 by lia. rewrite Z.pow_add_r by lia. reflexivity. }
  assert (Hp1 : 0 < 2 ^ (W - 1)) by (apply Z.pow_pos_nonneg; lia).
  rewrite (Z.mod_small (x - 1)) by lia.
  pose proof (smear_loop_covers n (x - 1)) as Hc. rewrite <- HW in Hc.
  destruct (Z.eq_dec x 1) as [-> | Hne].
  - change (1 - 1) with 0 in *. rewrite (covers_of_zero _ _ Hc).
    rewrite Z.mod_small by lia. apply (smallest_pow2_geq_log2_up 1). lia.
  - rewrite (covers_all_ones _ _ _ Hc) by lia.
    rewrite Z.ones_equiv.
    assert (Hup : Z.log2_up x = Z.log2 (x - 1) + 1).
    { unfold Z.log2_up. destruct (Z.compare_spec 1 x); try lia.
      now rewrite Z.sub_1_r. }
    rewrite <- Hup.
    replace (Z.pred (2 ^ Z.log2_up x) + 1) with (2 ^ Z.log2_up x) by lia.
    assert (Z.log2_up x <= W - 1).
    { apply Z.log2_up_le_pow2; lia. }
    pose proof (Z.log2_up_nonneg x).
    assert (2 ^ Z.log2_up x <= 2 ^ (W - 1)) by (apply Z.pow_le_mono_r; lia).
    rewrite Z.mod_small by (split; [apply Z.pow_nonneg; lia | lia]).
    apply smallest_pow2_geq_log2_up. lia.
Qed.

Lemma rounds_zero n W :
  W = 2 ^ Z.of_nat n ->
  (smear_loop n 0 ((0 - 1) mod 2 ^ W) + 1) mod 2 ^ W = 0.
Proof.
  intros HW.
  assert (HW1 : 1 <= W) by (subst W; pose proof (Z.pow_pos_nonneg 2 (Z.of_nat n)); lia).
  assert (Hp : 2 <= 2 ^ W).
  { replace W with (1 + (W - 1)) by lia. rewrite Z.pow_add_r by lia.
    pose proof (Z.pow_pos_nonneg 2 (W - 1)). lia. }
  assert (E : (0 - 1) mod 2 ^ W = 2 ^ W - 1).
  { symmetry. apply Z.mod_unique with (q := -1); lia. }
  rewrite E.
  pose proof (smear_loop_covers n (2 ^ W - 1)) as Hc. rewrite <- HW in Hc.
  rewrite (covers_all_ones _ _ _ Hc) by lia.
  assert (Hlog : Z.log2 (2 ^ W - 1) = W - 1).
  { assert (Hpw : 2 ^ W = 2 * 2 ^ (W - 1)).
    { replace W with (1 + (W - 1)) at 1 by lia. rewrite Z.pow_add_r by lia. reflexivity. }
    pose proof (Z.pow_pos_nonneg 2 (W - 1) ltac:(lia) ltac:(lia)).
    apply Z.log2_unique; [lia |].
    replace (Z.succ (W - 1)) with W by lia. lia. }
  rewrite Hlog, Z.ones_equiv. replace (W - 1 + 1) with W by lia.
  replace (Z.pred (2 ^ W) + 1) with (2 ^ W) by lia.
  apply Z.mod_same. lia.
Qed.

End TemplatedPowerFacts.

Module TemplatedPowerProperties.
Local Open Scope Z_scope.
Import UInt32 BitUtils PowerOfTwoSpec TemplatedPowerFacts.

(** X2: for an unsigned type of 1, 2, 4 or 8 bytes,
    [nearest_power_of_2_templated x] is the smallest power of two that is at
    least [x], for every [x] from 1 to half the range of the type, and it is
    [0] for [x = 0]; for the 4-byte type it is the same function as
    [next_power_of_2], on every argument. *)
Theorem nearest_power_of_2_templated_smallest :
  (forall sizeof_T x,
     sizeof_T = 1 \/ sizeof_T = 2 \/ sizeof_T = 4 \/ sizeof_T = 8 ->
     0 < x <= 2 ^ (8 * sizeof_T - 1) ->
     smallest_pow2_geq x (nearest_power_of_2_templated sizeof_T x))
  /\ (forall sizeof_T,
        sizeof_T = 1 \/ sizeof_T = 2 \/ sizeof_T = 4 \/ sizeof_T = 8 ->
        nearest_power_of_2_templated sizeof_T 0 = 0)
  /\ (forall x, nearest_power_of_2_templated 4 x = next_power_of_2 x).
Proof.
  split; [| split].
  - intros sizeof_T x Hs Hx. unfold nearest_power_of_2_templated.
    destruct Hs as [-> | [-> | [-> | ->]]].
    + apply (rounds_smallest 3 8); [reflexivity | exact Hx].
    + apply (rounds_smallest 4 16); [reflexivity | exact Hx].
    + apply (rounds_smallest 5 32); [reflexivity | exact Hx].
    + apply (rounds_smallest 6 64); [reflexivity | exact Hx].
  - intros sizeof_T Hs. unfold nearest_power_of_2_templated.
    destruct Hs as [-> | [-> | [-> | ->]]].
    + apply (rounds_zero 3 8). reflexivity.
    + apply (rounds_zero 4 16). reflexivity.
    + apply (rounds_zero 5 32). reflexivity.
    + apply (rounds_zero 6 64). reflexivity.
  - intros x. unfold next_power_of_2.
    destruct (Z.eqb_spec x 0) as [-> | Hne].
    + apply (rounds_zero 5 32). reflexivity.
    + reflexivity.
Qed.

Lemma nearest_power_of_2_templated_smallest_witness :
  0 < 100 <= 2 ^ (8 * 1 - 1)
  /\ smallest_pow2_geq 100 (nearest_power_of_2_templated 1 100).
Proof.
  split; [cbn; lia |].
  apply (proj1 nearest_power_of_2_templated_smallest 1 100); [left; reflexivity | cbn; lia].
Defined.

End TemplatedPowerProperties.

(* ================================================================== *)
(** * Further properties: byte swaps *)

Module ByteSwapFacts.
Local Open Scope Z_scope.
Import UInt32 BitUtils PowerOfTwoSpec ShiftFacts.

Lemma testbit_ones_bool n j :
  0 <= n -> Z.testbit (Z.ones n) j = (0 <=? j) && (j <? n).
Proof.
  intros Hn. destruct (Z.leb_spec 0 j); destruct (Z.ltb_spec j n); cbn.
  - apply Z.ones_spec_low; lia.
  - apply Z.ones_spec_high; lia.
  - apply Z.testbit_neg_r; lia.
  - apply Z.testbit_neg_r; lia.
Qed.

Lemma testbit_shiftl_bool a n j :
  Z.testbit (Z.shiftl a n) j = (0 <=? j) && Z.testbit a (j - n).
Proof.
  destruct (Z.leb_spec 0 j); cbn.
  - now apply Z.shiftl_spec.
  - apply Z.testbit_neg_r; lia.
Qed.

Lemma testbit_shiftr_bool a n j :
  Z.testbit (Z.shiftr a n) j = (0 <=? j) && Z.testbit a (j + n).
Proof.
  destruct (Z.leb_spec 0 j); cbn.
  - now apply Z.shiftr_spec.
  - apply Z.testbit_neg_r; lia.
Qed.

Lemma testbit_mod_pow2_bool a n j :
  0 <= n -> Z.testbit (a mod 2 ^ n) j = (j <? n) && Z.testbit a j.
Proof.
  intros Hn. destruct (Z.ltb_spec j n); cbn.
  - apply Z.mod_pow2_bits_low; lia.
  - apply Z.mod_pow2_bits_high; lia.
Qed.

Lemma testbit_beyond x n j : 0 <= x < 2 ^ n -> n <= j -> Z.testbit x j = false.
Proof.
  intros [H0 H1] Hj.
  destruct (Z.eq_dec x 0) as [-> | Hx]; [apply Z.testbit_0_l |].
  apply Z.bits_above_log2; [lia |].
  assert (Z.log2 x < n); [| lia].
  apply Z.log2_lt_pow2; lia.
Qed.

(** The masks of the source as unions of runs of ones. *)
Lemma mask32_byte2 : 0x00FF0000 = Z.shiftl (Z.ones 8) 16.
Proof. reflexivity. Qed.
Lemma mask32_byte1 : 0x0000FF00 = Z.shiftl (Z.ones 8) 8.
Proof. reflexivity. Qed.
Lemma mask64_low32 : 0x00000000FFFFFFFF = Z.ones 32.
Proof. reflexivity. Qed.
Lemma mask64_high32 : 0xFFFFFFFF00000000 = Z.shiftl (Z.ones 32) 32.
Proof. reflexivity. Qed.
Lemma mask64_low16 :
  0x0000FFFF0000FFFF = Z.lor (Z.ones 16) (Z.shiftl (Z.ones 16) 32).
Proof. reflexivity. Qed.
Lemma mask64_high16 :
  0xFFFF0000FFFF0000 = Z.lor (Z.shiftl (Z.ones 16) 16) (Z.shiftl (Z.ones 16) 48).
Proof. reflexivity. Qed.
Lemma mask64_low8 :
  0x00FF00FF00FF00FF
  = Z.lor (Z.lor (Z.ones 8) (Z.shiftl (Z.ones 8) 16))
          (Z.lor (Z.shiftl (Z.ones 8) 32) (Z.shiftl (Z.ones 8) 48)).
Proof. reflexivity. Qed.
Lemma mask64_high8 :
  0xFF00FF00FF00FF00
  = Z.lor (Z.lor (Z.shiftl (Z.ones 8) 8) (Z.shiftl (Z.ones 8) 24))
          (Z.lor (Z.shiftl (Z.ones 8) 40) (Z.shiftl (Z.ones 8) 56)).
Proof. reflexivity. Qed.

(** Turn [Z.testbit] of a bitwise expression into a boolean formula over
    the bits of its variables and comparisons of the bit index. *)
Ltac bits_expand :=
  repeat first
    [ rewrite Z.lor_spec | rewrite Z.land_spec
    | rewrite testbit_shiftl_bool | rewrite testbit_shiftr_bool
    | rewrite testbit_mod_pow2_bool by lia
    | rewrite testbit_ones_bool by lia ].

(** Decide the comparisons of the formula from the hypotheses. *)
Ltac bits_compare :=
  repeat match goal with
         | |- context [?a <=? ?b] => destruct (Z.leb_spec a b); try lia
         | |- context [?a <? ?b] => destruct (Z.ltb_spec a b); try lia
         end;
  cbn [andb orb];
  rewrite ?andb_false_r, ?orb_false_r, ?orb_false_l, ?andb_true_r.

(** Drop the bits of [x] at negative positions and beyond its width. *)
Ltac bits_beyond x Hx :=
  repeat match goal with
         | |- context [Z.testbit x ?j] =>
             first [ rewrite (Z.testbit_neg_r x j) by lia
                   | rewrite (testbit_beyond x _ j Hx) by lia ]
         end;
  rewrite ?andb_false_r, ?orb_false_r, ?orb_false_l, ?andb_true_r.

Ltac byte_ranges i :=
  destruct (Z.lt_ge_cases i 8); [| destruct (Z.lt_ge_cases i 16);
  [| destruct (Z.lt_ge_cases i 24); [| destruct (Z.lt_ge_cases i 32);
  [| destruct (Z.lt_ge_cases i 40); [| destruct (Z.lt_ge_cases i 48);
  [| destruct (Z.lt_ge_cases i 56); [| destruct (Z.lt_ge_cases i 64)]]]]]]].

(** Bit [i] of the swapped word of [n] bytes is bit
    [8 * (n - 1 - i / 8) + i mod 8] of the argument. *)
Lemma BSWAP16_testbit x i :
  0 <= x < 2 ^ 16 -> 0 <= i < 16 ->
  Z.testbit (BSWAP16 x) i = Z.testbit x (8 * (1 - i / 8) + i mod 8).
Proof.
  intros Hx Hi. unfold BSWAP16. bits_expand.
  assert (Hq : i = 8 * (i / 8) + i mod 8) by (apply Z.div_mod; lia).
  assert (Hr : 0 <= i mod 8 < 8) by (apply Z.mod_pos_bound; lia).
  set (q := i / 8) in *. set (r := i mod 8) in *.
  byte_ranges i; try lia.
  all: bits_compare; bits_beyond x Hx; f_equal; lia.
Qed.

Lemma BSWAP32_testbit x i :
  0 <= x < 2 ^ 32 -> 0 <= i < 32 ->
  Z.testbit (BSWAP32 x) i = Z.testbit x (8 * (3 - i / 8) + i mod 8).
Proof.
  intros Hx Hi. unfold BSWAP32, wrap, modulus.
  rewrite mask32_byte2, mask32_byte1. bits_expand.
  assert (Hq : i = 8 * (i / 8) + i mod 8) by (apply Z.div_mod; lia).
  assert (Hr : 0 <= i mod 8 < 8) by (apply Z.mod_pos_bound; lia).
  set (q := i / 8) in *. set (r := i mod 8) in *.
  byte_ranges i; try lia.
  all: bits_compare; bits_beyond x Hx; f_equal; lia.
Qed.

Lemma BSWAP64_testbit x i :
  0 <= x < 2 ^ 64 -> 0 <= i < 64 ->
  Z.testbit (BSWAP64 x) i = Z.testbit x (8 * (7 - i / 8) + i mod 8).
Proof.
  intros _ Hi. unfold BSWAP64.
  rewrite mask64_low32, mask64_high32, mask64_low16, mask64_high16,
    mask64_low8, mask64_high8.
  bits_expand.
  assert (Hq : i = 8 * (i / 8) + i mod 8) by (apply Z.div_mod; lia).
  assert (Hr : 0 <= i mod 8 < 8) by (apply Z.mod_pos_bound; lia).
  set (q := i / 8) in *. set (r := i mod 8) in *.
  byte_ranges i; try lia.
  all: bits_compare; f_equal; lia.
Qed.

End ByteSwapFacts.

Module ByteSwapProperties.
Local Open Scope Z_scope.
Import UInt32 BitUtils PowerOfTwoSpec ShiftFacts ByteSwapFacts.

Lemma bits_above_range a n :
  0 <= n -> (forall j, n <= j -> Z.testbit a j = false) -> 0 <= a < 2 ^ n.
Proof.
  intros Hn Hb.
  assert (Ha : 0 <= a).
  { destruct (Z.le_gt_cases 0 a) as [H | H]; [exact H | exfalso].
    set (m := Z.max n (Z.log2 (Z.abs a) + 1)).
    assert (Hm : Z.testbit a m = true) by (apply Z.bits_iff_neg; lia).
    rewrite Hb in Hm by lia. discriminate. }
  split; [exact Ha |]. apply bits_above_lt; assumption.
Qed.

Section Reversal.
(** A function [f] on words of [K + 1] bytes that sends bit [i] to the same
    position within the mirrored byte. *)
Variable f : Z -> Z.
Variable K : Z.
Hypothesis K_nonneg : 0 <= K.
Hypothesis f_range : forall x, 0 <= x < 2 ^ (8 * (K + 1)) -> 0 <= f x < 2 ^ (8 * (K + 1)).
Hypothesis f_testbit : forall x i,
  0 <= x < 2 ^ (8 * (K + 1)) -> 0 <= i < 8 * (K + 1) ->
  Z.testbit (f x) i = Z.testbit x (8 * (K - i / 8) + i mod 8).

Lemma mirrored_index i :
  0 <= i < 8 * (K + 1) ->
  0 <= 8 * (K - i / 8) + i mod 8 < 8 * (K + 1)
  /\ (8 * (K - i / 8) + i mod 8) / 8 = K - i / 8
  /\ (8 * (K - i / 8) + i mod 8) mod 8 = i mod 8.
Proof.
  intros Hi.
  assert (Hq : i = 8 * (i / 8) + i mod 8) by (apply Z.div_mod; lia).
  assert (Hr : 0 <= i mod 8 < 8) by (apply Z.mod_pos_bound; lia).
  set (q := i / 8) in *. set (r := i mod 8) in *.
  assert (Hd : (8 * (K - q) + r) / 8 = K - q).
  { symmetry. apply Z.div_unique with (r := r); lia. }
  assert (Hm : (8 * (K - q) + r) mod 8 = r).
  { symmetry. apply Z.mod_unique with (q := K - q); lia. }
  repeat split; try lia; assumption.
Qed.

Lemma reversal_involutive x :
  0 <= x < 2 ^ (8 * (K + 1)) -> f (f x) = x.
Proof.
  intros Hx. apply Z.bits_inj'. intros i Hi.
  destruct (Z.lt_ge_cases i (8 * (K + 1))) as [Hlt | Hge].
  - destruct (mirrored_index i ltac:(lia)) as (Hj & Hd & Hm).
    rewrite f_testbit by (try apply f_range; lia).
    rewrite f_testbit by lia.
    rewrite Hd, Hm. f_equal.
    pose proof (Z.div_mod i 8 ltac:(lia)). lia.
  - rewrite (testbit_beyond (f (f x)) (8 * (K + 1))) by (try apply f_range; try apply f_range; lia).
    rewrite (testbit_beyond x (8 * (K + 1))) by lia. reflexivity.
Qed.

Lemma reversal_bytes x k :
  0 <= x < 2 ^ (8 * (K + 1)) -> 0 <= k <= K ->
  byte_of (f x) k = byte_of x (K - k).
Proof.
  intros Hx Hk. unfold byte_of. apply Z.bits_inj'. intros j Hj.
  rewrite !testbit_mod_pow2_bool, !testbit_shiftr_bool by lia.
  destruct (Z.ltb_spec j 8) as [Hlt | Hge]; [| reflexivity].
  destruct (Z.leb_spec 0 j) as [_ | ?]; [| lia]. cbn [andb].
  rewrite f_testbit by lia.
  assert (Hd : (j + 8 * k) / 8 = k).
  { symmetry. apply Z.div_unique with (r := j); lia. }
  assert (Hm : (j + 8 * k) mod 8 = j).
  { symmetry. apply Z.mod_unique with (q := k); lia. }
  rewrite Hd, Hm. f_equal. lia.
Qed.

End Reversal.

Lemma BSWAP16_range x : 0 <= x < 2 ^ 16 -> 0 <= BSWAP16 x < 2 ^ 16.
Proof. intros _. unfold BSWAP16. apply Z.mod_pos_bound. lia. Qed.

Lemma BSWAP32_range x : 0 <= x < 2 ^ 32 -> 0 <= BSWAP32 x < 2 ^ 32.
Proof.
  intros Hx. apply bits_above_range; [lia |]. intros j Hj.
  unfold BSWAP32, wrap, modulus. rewrite mask32_byte2, mask32_byte1.
  bits_expand; bits_compare; bits_beyond x Hx; reflexivity.
Qed.

Lemma BSWAP64_range x : 0 <= x < 2 ^ 64 -> 0 <= BSWAP64 x < 2 ^ 64.
Proof.
  intros Hx. apply bits_above_range; [lia |]. intros j Hj.
  unfold BSWAP64.
  rewrite mask64_low32, mask64_high32, mask64_low16, mask64_high16,
    mask64_low8, mask64_high8.
  bits_expand; bits_compare; bits_beyond x Hx; reflexivity.
Qed.

(** X6: on every 16-bit word [BSWAP16] yields a 16-bit word whose bytes are
    those of the argument in the opposite order, and applying it twice gives
    the argument back. *)
Theorem BSWAP16_reverses_bytes (x : Z) :
  0 <= x < 2 ^ 16 ->
  0 <= BSWAP16 x < 2 ^ 16
  /\ byte_of (BSWAP16 x) 0 = byte_of x 1
  /\ byte_of (BSWAP16 x) 1 = byte_of x 0
  /\ BSWAP16 (BSWAP16 x) = x.
Proof.
  intros Hx. split; [apply BSWAP16_range; exact Hx |].
  split; [| split].
  - apply (reversal_bytes BSWAP16 1); first [exact BSWAP16_testbit | lia].
  - apply (reversal_bytes BSWAP16 1); first [exact BSWAP16_testbit | lia].
  - apply (reversal_involutive BSWAP16 1);
      first [exact BSWAP16_testbit | exact BSWAP16_range | lia].
Qed.

Lemma BSWAP16_reverses_bytes_witness :
  BSWAP16 0x1234 = 0x3412 /\ BSWAP16 (BSWAP16 0x1234) = 0x1234.
Proof.
  split; [reflexivity |].
  apply (BSWAP16_reverses_bytes 0x1234). lia.
Defined.

(** X7: on every 32-bit word [BSWAP32] yields a 32-bit word whose four
    bytes are those of the argument in the opposite order, and applying it
    twice gives the argument back. *)
Theorem BSWAP32_reverses_bytes (x : Z) :
  0 <= x < 2 ^ 32 ->
  0 <= BSWAP32 x < 2 ^ 32
  /\ (forall k, 0 <= k <= 3 -> byte_of (BSWAP32 x) k = byte_of x (3 - k))
  /\ BSWAP32 (BSWAP32 x) = x.
Proof.
  intros Hx. split; [apply BSWAP32_range; exact Hx |]. split.
  - intros k Hk.
    apply (reversal_bytes BSWAP32 3); first [exact BSWAP32_testbit | lia].
  - apply (reversal_involutive BSWAP32 3);
      first [exact BSWAP32_testbit | exact BSWAP32_range | lia].
Qed.

Lemma BSWAP32_reverses_bytes_witness :
  BSWAP32 0x12345678 = 0x78563412 /\ BSWAP32 (BSWAP32 0x12345678) = 0x12345678.
Proof.
  split; [reflexivity |].
  apply (BSWAP32_reverses_bytes 0x12345678). lia.
Defined.

(** X8: on every 64-bit word [BSWAP64] yields a 64-bit word whose eight
    bytes are those of the argument in the opposite order, and applying it
    twice gives the argument back. *)
Theorem BSWAP64_reverses_bytes (x : Z) :
  0 <= x < 2 ^ 64 ->
  0 <= BSWAP64 x < 2 ^ 64
  /\ (forall k, 0 <= k <= 7 -> byte_of (BSWAP64 x) k = byte_of x (7 - k))
  /\ BSWAP64 (BSWAP64 x) = x.
Proof.
  intros Hx. split; [apply BSWAP64_range; exact Hx |]. split.
  - intros k Hk.
    apply (reversal_bytes BSWAP64 7); first [exact BSWAP64_testbit | lia].
  - apply (reversal_involutive BSWAP64 7);
      first [exact BSWAP64_testbit | exact BSWAP64_range | lia].
Qed.

Lemma BSWAP64_reverses_bytes_witness :
  BSWAP64 0x0123456789ABCDEF = 0xEFCDAB8967452301
  /\ BSWAP64 (BSWAP64 0x0123456789ABCDEF) = 0x0123456789ABCDEF.
Proof.
  split; [reflexivity |].
  apply (BSWAP64_reverses_bytes 0x0123456789ABCDEF). lia.
Defined.

End ByteSwapProperties.

(* ================================================================== *)
(** * Further properties: integer remainders *)

Module PosmodProperties.
Local Open Scope Z_scope.
Import Int64 IntWrap MachineIntFacts.

Lemma posmod_nonzero p_x p_y :
  in_range p_x -> in_range p_y -> p_y <> 0 ->
  posmod p_x p_y = Some (p_x mod p_y).
Proof.
  intros Hx Hy Hnz. unfold posmod.
  destruct (Z.eqb_spec p_y 0) as [E | _]; [contradiction |].
  pose proof (Z.quot_rem' p_x p_y) as Hqr.
  pose proof (Z.rem_bound_abs p_x p_y Hnz) as Habs.
  set (value := Z.rem p_x p_y) in *.
  assert (Hsign : (0 <= p_x -> 0 <= value) /\ (p_x <= 0 -> value <= 0)).
  { split; intros H; [apply Z.rem_nonneg | apply Z.rem_nonpos]; assumption. }
  f_equal.
  destruct (Z.ltb_spec value 0) as [Hv | Hv];
    destruct (Z.ltb_spec 0 p_y) as [Hp | Hp];
    destruct (Z.ltb_spec 0 value) as [Hv' | Hv'];
    destruct (Z.ltb_spec p_y 0) as [Hp' | Hp']; cbn [andb orb]; try lia.
  all: rewrite ?wrap64_small by (unfold in_range, min_int, max_int in *; lia).
  all: first
    [ apply Z.mod_unique_pos with (q := Z.quot p_x p_y); lia
    | apply Z.mod_unique_neg with (q := Z.quot p_x p_y); lia
    | apply Z.mod_unique_pos with (q := Z.quot p_x p_y - 1); lia
    | apply Z.mod_unique_neg with (q := Z.quot p_x p_y - 1); lia ].
Qed.



(** X10: when [max > min] and no intermediate result overflows, [wrapi]
    is [min] plus the [posmod] of [value - min] by [max - min]. *)
Theorem wrapi_is_min_plus_posmod (value min max : Z) :
  min < max ->
  in_range (max - min) -> in_range (value - min) ->
  in_range (Z.rem (value - min) (max - min) + (max - min)) ->
  in_range min -> in_range max ->
  exists r,
    posmod (value - min) (max - min) = Some r
    /\ wrapi value min max = min + r
    /\ r = (value - min) mod (max - min).
Proof.
  intros Hlt Hrange Hvm Hsum Hmin Hmax.
  exists ((value - min) mod (max - min)).
  split; [apply posmod_nonzero; [assumption | assumption | lia] |].
  split; [| reflexivity].
  unfold wrapi.
  rewrite (wrap64_small (max - min) Hrange), (wrap64_small (value - min) Hvm).
  destruct (Z.eqb_spec (max - min) 0) as [H0 | _]; [lia |].
  rewrite (wrap64_small _ Hsum).
  set (range := max - min) in *.
  set (r1 := Z.rem (value - min) range) in *.
  assert (Hr1 : - range < r1 < range).
  { pose proof (Z.rem_bound_abs (value - min) range ltac:(lia)). unfold r1. lia. }
  set (r2 := Z.rem (r1 + range) range).
  assert (Hr2 : 0 <= r2 < range) by (apply Z.rem_bound_pos; lia).
  assert (E1 : value - min = range * Z.quot (value - min) range + r1)
    by apply Z.quot_rem'.
  assert (E2 : r1 + range = range * Z.quot (r1 + range) range + r2)
    by apply Z.quot_rem'.
  assert (Er : r2 = (value - min) mod range).
  { apply Z.mod_unique_pos
      with (q := Z.quot (value - min) range + Z.quot (r1 + range) range - 1); lia. }
  rewrite <- Er.
  apply wrap64_small. unfold in_range, min_int, max_int in *. lia.
Qed.

Lemma wrapi_is_min_plus_posmod_witness :
  exists r,
    posmod (-7 - 3) (10 - 3) = Some r
    /\ wrapi (-7) 3 10 = 3 + r
    /\ r = (-7 - 3) mod (10 - 3).
Proof.
  apply (wrapi_is_min_plus_posmod (-7) 3 10);
    unfold in_range, min_int, max_int; cbn; lia.
Defined.

End PosmodProperties.

(* ================================================================== *)
(** * Further properties: scalar functions in exact arithmetic *)

Module ExactOrderFacts.
Import Exact ExactRound.
Local Open Scope Q_scope.

Lemma Qeq_bool_reflect x y : reflect (x == y) (Qeq_bool x y).
Proof.
  destruct (Qeq_bool x y) eqn:E; constructor.
  - now apply Qeq_bool_iff.
  - intros H. apply Qeq_bool_iff in H. congruence.
Qed.

Lemma Qle_bool_reflect x y : reflect (x <= y) (Qle_bool x y).
Proof.
  destruct (Qle_bool x y) eqn:E; constructor.
  - now apply Qle_bool_iff.
  - intros H. apply Qle_bool_iff in H. congruence.
Qed.

Lemma Qltb_reflect x y : reflect (x < y) (Qltb x y).
Proof.
  unfold Qltb. destruct (Qle_bool_reflect y x) as [H | H]; constructor.
  - now apply Qle_not_lt.
  - now apply Qnot_le_lt.
Qed.



End ExactOrderFacts.

(** Case analysis on the comparisons of rationals that occur in the goal. *)
Ltac q_compare :=
  repeat match goal with
         | |- context [Qeq_bool ?a ?b] =>
             destruct (ExactOrderFacts.Qeq_bool_reflect a b)
         | |- context [Qle_bool ?a ?b] =>
             destruct (ExactOrderFacts.Qle_bool_reflect a b)
         | |- context [Exact.Qltb ?a ?b] =>
             destruct (ExactOrderFacts.Qltb_reflect a b)
         end.

(** Unfold the operations of the scalar interface at the rationals. *)
Ltac q_ops :=
  cbn [lit litf add sub mul div opp eqb ltb abs fmod leb floor
       Exact.Q_Scalar ExactRound.Q_ScalarRound] in *.

Module ExactInterpolation.
Import Exact ExactRound Math ExactOrderFacts.
Local Open Scope Q_scope.









End ExactInterpolation.

Module ExactRemainderProperties.
Import Exact ExactRound Math ExactFacts ExactOrderFacts.
Local Open Scope Q_scope.




End ExactRemainderProperties.

Module ExactRoundingFacts.
Import Exact ExactRound Math ExactOrderFacts.
Local Open Scope Q_scope.



End ExactRoundingFacts.

Module ExactRoundingProperties.
Import Exact ExactRound Math ExactOrderFacts ExactRoundingFacts.
Local Open Scope Q_scope.

(** X17: in exact arithmetic, when [minv <= maxv] the result of [clamp]
    lies in [[minv, maxv]], is [x] itself when [x] is already there, and
    clamping twice is clamping once. *)
Theorem clamp_within_bounds (x minv maxv : Q) :
  minv <= maxv ->
  minv <= clamp x minv maxv /\ clamp x minv maxv <= maxv
  /\ (minv <= x -> x <= maxv -> clamp x minv maxv = x)
  /\ clamp (clamp x minv maxv) minv maxv = clamp x minv maxv.
Proof.
  intros Hle. unfold clamp. q_ops.
  q_compare; repeat split; intros; q_compare;
    first [reflexivity | lra | exfalso; lra].
Qed.

Lemma clamp_within_bounds_witness :
  clamp (T := Q) 7 0 5 <= 5 /\ clamp (T := Q) (-2) 0 5 = 0 /\ clamp (T := Q) 3 0 5 = 3.
Proof.
  destruct (clamp_within_bounds 7 0 5) as (_ & H & _); [vm_compute; discriminate |].
  split; [exact H |]. split; reflexivity.
Defined.




End ExactRoundingProperties.

Module ExactSnappingProperties.
Import Exact ExactRound Math ExactOrderFacts ExactRoundingFacts.
Local Open Scope Q_scope.






End ExactSnappingProperties.

Module ExactSteppingProperties.
Import Exact ExactRound Math ExactOrderFacts ExactRoundingFacts.
Local Open Scope Q_scope.








End ExactSteppingProperties.

(* ================================================================== *)
(** * Further properties: comparisons in binary64 *)

Module Binary64OrderFacts.
Import Binary64 Math.

Lemma SFcompare_refl f : f <> S754_nan -> SFcompare f f = Some Eq.
Proof.
  destruct f as [s | s | | s m e]; intros H; cbn.
  - reflexivity.
  - destruct s; reflexivity.
  - contradiction.
  - rewrite Z.compare_refl.
    change (Pos.compare_cont Eq m m) with (Pos.compare m m).
    rewrite Pos.compare_refl. destruct s; reflexivity.
Qed.

Lemma SFcompare_antisym f1 f2 :
  SFcompare f2 f1 = option_map CompOpp (SFcompare f1 f2).
Proof.
  destruct f1 as [s1 | s1 | | s1 m1 e1], f2 as [s2 | s2 | | s2 m2 e2];
    try destruct s1; try destruct s2; cbn; try reflexivity.
  - rewrite (Z.compare_antisym e1 e2).
    destruct (Z.compare e1 e2); cbn; try reflexivity.
    change Eq with (CompOpp Eq) at 1.
    rewrite <- (Pos.compare_cont_antisym m1 m2 Eq).
    destruct (Pos.compare_cont Eq m1 m2); reflexivity.
  - rewrite (Z.compare_antisym e1 e2).
    destruct (Z.compare e1 e2); cbn; try reflexivity.
    change Eq with (CompOpp Eq) at 1.
    rewrite <- (Pos.compare_cont_antisym m1 m2 Eq). reflexivity.
Qed.

Lemma eqb_self_false_nan (x : float) : PrimFloat.eqb x x = false -> x = PrimFloat.nan.
Proof.
  intros H. rewrite FloatAxioms.eqb_spec in H. unfold SFeqb in H.
  destruct (Prim2SF x) eqn:E.
  - discriminate.
  - rewrite SFcompare_refl in H by discriminate. discriminate.
  - rewrite <- (FloatAxioms.SF2Prim_Prim2SF x), E. reflexivity.
  - rewrite SFcompare_refl in H by discriminate. discriminate.
Qed.

Lemma is_nan_Prim2SF (x : float) :
  PrimFloat.is_nan x = false -> Prim2SF x <> S754_nan.
Proof.
  unfold PrimFloat.is_nan. rewrite FloatAxioms.eqb_spec. unfold SFeqb.
  intros H E. rewrite E in H. cbn in H. discriminate.
Qed.

Lemma leb_true_not_nan (x y : float) :
  PrimFloat.leb x y = true -> Prim2SF x <> S754_nan /\ Prim2SF y <> S754_nan.
Proof.
  rewrite FloatAxioms.leb_spec. unfold SFleb.
  destruct (Prim2SF x), (Prim2SF y); cbn; intros H; split; discriminate.
Qed.

Lemma leb_refl (x : float) : Prim2SF x <> S754_nan -> PrimFloat.leb x x = true.
Proof.
  intros H. rewrite FloatAxioms.leb_spec. unfold SFleb.
  now rewrite SFcompare_refl.
Qed.

(** For comparable numbers, [x < y] being false means [y <= x]. *)
Lemma ltb_false_leb (x y : float) :
  Prim2SF x <> S754_nan -> Prim2SF y <> S754_nan ->
  PrimFloat.ltb x y = false -> PrimFloat.leb y x = true.
Proof.
  intros Hx Hy. rewrite FloatAxioms.ltb_spec, FloatAxioms.leb_spec.
  unfold SFltb, SFleb. rewrite (SFcompare_antisym (Prim2SF x) (Prim2SF y)).
  destruct (SFcompare (Prim2SF x) (Prim2SF y)) as [[| |] |] eqn:E; cbn;
    try reflexivity; try discriminate.
  intros _. exfalso.
  destruct (Prim2SF x), (Prim2SF y); cbn in E; try discriminate; contradiction.
Qed.

End Binary64OrderFacts.

Module Binary64Properties.
Import Exact Binary64 Math ExactOrderFacts Binary64OrderFacts.

(** X25: on binary64 numbers [is_equal_approx x x] is true for every [x]
    that is not NaN and false for NaN; in exact arithmetic
    [is_equal_approx] holds whenever the test with the fixed tolerance
    [CMP_EPSILON] does, and [is_zero_approx s] is that test of [s] against
    zero. *)
Theorem is_equal_approx_reflexive_except_nan :
  (forall (cfg : BuildConfig) (x : float),
     is_equal_approx cfg x x = negb (PrimFloat.is_nan x))
  /\ (forall (cfg : BuildConfig) (a b : Q),
        is_equal_approx_tolerance a b (CMP_EPSILON cfg) = true ->
        is_equal_approx cfg a b = true)
  /\ (forall (cfg : BuildConfig) (s : Q),
        is_zero_approx cfg s = is_equal_approx_tolerance s 0%Q (CMP_EPSILON cfg)).
Proof.
  split; [| split].
  - intros cfg x. unfold is_equal_approx, PrimFloat.is_nan.
    cbn [eqb float_Scalar].
    destruct (PrimFloat.eqb x x) eqn:E; [reflexivity |].
    rewrite (eqb_self_false_nan x E). vm_compute. reflexivity.
  - intros cfg a b. unfold is_equal_approx_tolerance, is_equal_approx. q_ops.
    assert (Heps : (0 < CMP_EPSILON (T := Q) cfg)%Q) by reflexivity.
    set (eps := CMP_EPSILON (T := Q) cfg) in *. clearbody eps.
    pose proof (Qabs_nonneg a) as Ha.
    destruct (Qeq_bool_reflect a b); [reflexivity |].
    destruct (Qltb_reflect (Qabs (a - b)) eps) as [H | H]; [| discriminate].
    intros _.
    destruct (Qltb_reflect (eps * Qabs a) eps) as [H1 | H1].
    + destruct (Qltb_reflect (Qabs (a - b)) eps); [reflexivity | contradiction].
    + destruct (Qltb_reflect (Qabs (a - b)) (eps * Qabs a)) as [| H2]; [reflexivity |].
      exfalso. apply H2. apply Qlt_le_trans with (y := eps); [exact H |].
      apply Qnot_lt_le. exact H1.
  - intros cfg s. unfold is_zero_approx, is_equal_approx_tolerance. q_ops.
    assert (Heps : (0 < CMP_EPSILON (T := Q) cfg)%Q) by reflexivity.
    set (eps := CMP_EPSILON (T := Q) cfg) in *. clearbody eps.
    assert (E : (s - 0 == s)%Q) by ring.
    destruct (Qeq_bool_reflect s 0%Q) as [E0 | _].
    + destruct (Qltb_reflect (Qabs s) eps) as [| H]; [reflexivity |].
      exfalso. apply H. rewrite E0. exact Heps.
    + destruct (Qltb_reflect (Qabs s) eps) as [H | H];
        destruct (Qltb_reflect (Qabs (s - 0)) eps) as [H' | H']; try reflexivity;
        exfalso; [apply H'; rewrite E; exact H | apply H; rewrite <- E; exact H'].
Qed.

Lemma is_equal_approx_reflexive_except_nan_witness :
  is_equal_approx (T := Q) precise_config 1 (1 + 0.000001)%Q = true.
Proof.
  apply (proj1 (proj2 is_equal_approx_reflexive_except_nan)).
  vm_compute. reflexivity.
Defined.

(** X26: on binary64 numbers, when [minv <= maxv] and [x] is not NaN the
    result of [clamp] satisfies [minv <= clamp x minv maxv <= maxv]; a NaN
    argument is returned as it is, because both comparisons are false. *)
Theorem clamp_binary64_bounds :
  (forall x minv maxv : float,
     PrimFloat.leb minv maxv = true -> PrimFloat.is_nan x = false ->
     PrimFloat.leb minv (clamp x minv maxv) = true
     /\ PrimFloat.leb (clamp x minv maxv) maxv = true)
  /\ (forall minv maxv : float, clamp PrimFloat.nan minv maxv = PrimFloat.nan).
Proof.
  split.
  - intros x minv maxv Hle Hx. unfold clamp. cbn [ltb float_Scalar].
    destruct (leb_true_not_nan _ _ Hle) as [Hlo Hhi].
    pose proof (is_nan_Prim2SF x Hx) as Hxn.
    destruct (PrimFloat.ltb x minv) eqn:E1.
    + split; [apply leb_refl; exact Hlo | exact Hle].
    + destruct (PrimFloat.ltb maxv x) eqn:E2.
      * split; [exact Hle | apply leb_refl; exact Hhi].
      * split; apply ltb_false_leb; assumption.
  - intros minv maxv. unfold clamp. cbn [ltb float_Scalar].
    assert (H1 : PrimFloat.ltb PrimFloat.nan minv = false).
    { rewrite FloatAxioms.ltb_spec. reflexivity. }
    assert (H2 : PrimFloat.ltb maxv PrimFloat.nan = false).
    { rewrite FloatAxioms.ltb_spec. unfold SFltb.
      change (Prim2SF PrimFloat.nan) with S754_nan.
      destruct (Prim2SF maxv); reflexivity. }
    rewrite H1, H2. reflexivity.
Qed.

Lemma clamp_binary64_bounds_witness :
  PrimFloat.leb (lit 0) (clamp (T := float) (lit 7) (lit 0) (lit 5)) = true
  /\ PrimFloat.leb (clamp (T := float) (lit 7) (lit 0) (lit 5)) (lit 5) = true.
Proof.
  apply (proj1 clamp_binary64_bounds (lit 7) (lit 0) (lit 5)); vm_compute; reflexivity.
Defined.

End Binary64Properties.

(* ================================================================== *)
(** * Further properties: interpolation of angles *)

Module ExactAngleProperties.
Import Exact ExactRound Math ExactFacts AngleFacts ExactOrderFacts.
Local Open Scope Q_scope.






End ExactAngleProperties.

(* ================================================================== *)
(** * Further properties: [min], [max] and [sign] *)

Module SelectionFacts.
Import Binary64 Math Binary64OrderFacts.

Lemma is_nan_true (x : float) : PrimFloat.is_nan x = true -> x = PrimFloat.nan.
Proof.
  unfold PrimFloat.is_nan. intros H. apply eqb_self_false_nan.
  destruct (PrimFloat.eqb x x); [discriminate | reflexivity].
Qed.

Lemma ltb_nan_l (y : float) : PrimFloat.ltb PrimFloat.nan y = false.
Proof. rewrite FloatAxioms.ltb_spec. reflexivity. Qed.

Lemma ltb_nan_r (x : float) : PrimFloat.ltb x PrimFloat.nan = false.
Proof.
  rewrite FloatAxioms.ltb_spec. unfold SFltb.
  change (Prim2SF PrimFloat.nan) with S754_nan.
  destruct (Prim2SF x); reflexivity.
Qed.

Lemma eqb_nan_l (y : float) : PrimFloat.eqb PrimFloat.nan y = false.
Proof. rewrite FloatAxioms.eqb_spec. reflexivity. Qed.

Lemma ltb_true_leb (x y : float) :
  PrimFloat.ltb x y = true -> PrimFloat.leb x y = true.
Proof.
  rewrite FloatAxioms.ltb_spec, FloatAxioms.leb_spec. unfold SFltb, SFleb.
  destruct (SFcompare (Prim2SF x) (Prim2SF y)) as [[| |] |];
    first [reflexivity | discriminate].
Qed.

End SelectionFacts.

Module SelectionProperties.
Import Exact Binary64 Math ExactOrderFacts Binary64OrderFacts SelectionFacts.

(** X29: on binary64 numbers [min] and [max] return one of their
    arguments; when neither argument is NaN, [min a b] is below both and
    [max a b] is above both; when either argument is NaN both return their
    second argument [b], so a NaN in the first place is dropped and a NaN in
    the second place is returned. *)
Theorem min_max_bounds_and_nan :
  (forall a b : float,
     PrimFloat.is_nan a = false -> PrimFloat.is_nan b = false ->
     PrimFloat.leb (min a b) a = true /\ PrimFloat.leb (min a b) b = true
     /\ PrimFloat.leb a (max a b) = true /\ PrimFloat.leb b (max a b) = true)
  /\ (forall a b : float,
        (min a b = a \/ min a b = b) /\ (max a b = a \/ max a b = b))
  /\ (forall a b : float,
        PrimFloat.is_nan a = true \/ PrimFloat.is_nan b = true ->
        min a b = b /\ max a b = b).
Proof.
  split; [| split].
  - intros a b Ha Hb. unfold min, max. cbn [ltb float_Scalar].
    pose proof (is_nan_Prim2SF a Ha) as Na.
    pose proof (is_nan_Prim2SF b Hb) as Nb.
    repeat split.
    + destruct (PrimFloat.ltb a b) eqn:E;
        [apply leb_refl | apply ltb_false_leb]; assumption.
    + destruct (PrimFloat.ltb a b) eqn:E;
        [apply ltb_true_leb | apply leb_refl]; assumption.
    + destruct (PrimFloat.ltb b a) eqn:E;
        [apply leb_refl | apply ltb_false_leb]; assumption.
    + destruct (PrimFloat.ltb b a) eqn:E;
        [apply ltb_true_leb | apply leb_refl]; assumption.
  - intros a b. unfold min, max. cbn [ltb float_Scalar].
    destruct (PrimFloat.ltb a b), (PrimFloat.ltb b a); auto.
  - intros a b [H | H]; apply is_nan_true in H; subst; unfold min, max;
      cbn [ltb float_Scalar]; rewrite ?ltb_nan_l, ?ltb_nan_r; split; reflexivity.
Qed.

Lemma min_max_bounds_and_nan_witness :
  min (T := float) PrimFloat.nan (lit 2) = lit 2
  /\ max (T := float) PrimFloat.nan (lit 2) = lit 2.
Proof.
  apply (proj2 (proj2 min_max_bounds_and_nan) PrimFloat.nan (lit 2)).
  left. reflexivity.
Defined.

(** X30: [sign] returns -1, 0 or 1.  In exact arithmetic it is 0 exactly
    at 0 and [sign x * |x| = x]; on binary64 numbers it is 0 for both
    zeros and 1 for NaN, for which both comparisons are false. *)
Theorem sign_values :
  (forall x : Q,
     (sign x == -1 \/ sign x == 0 \/ sign x == 1)%Q
     /\ (sign x == 0 <-> x == 0)%Q
     /\ (sign x * Qabs x == x)%Q)
  /\ (forall x : float,
        sign x = PrimFloat.opp (litf 1) \/ sign x = litf 0 \/ sign x = litf 1)
  /\ (forall x : float, PrimFloat.eqb x (lit 0) = true -> sign x = litf 0)
  /\ (forall x : float, PrimFloat.is_nan x = true -> sign x = litf 1).
Proof.
  split; [| split; [| split]].
  - intros x. unfold sign. q_ops.
    destruct (Qeq_bool_reflect x 0) as [E0 | N0].
    + split; [right; left; reflexivity |].
      split; [split; intros _; [exact E0 | reflexivity] |].
      rewrite E0. reflexivity.
    + destruct (Qltb_reflect x 0) as [Hl | Hl].
      * split; [left; reflexivity |].
        split; [split; intros H; [discriminate H | contradiction] |].
        rewrite Qabs_neg by lra. ring.
      * split; [right; right; reflexivity |].
        split; [split; intros H; [discriminate H | contradiction] |].
        rewrite Qabs_pos by lra. ring.
  - intros x. unfold sign. cbn [eqb ltb opp float_Scalar].
    destruct (PrimFloat.eqb x (lit 0)); [auto |].
    destruct (PrimFloat.ltb x (lit 0)); auto.
  - intros x H. unfold sign. cbn [eqb float_Scalar]. rewrite H. reflexivity.
  - intros x H. apply is_nan_true in H. subst x. unfold sign.
    cbn [eqb ltb float_Scalar]. rewrite eqb_nan_l, ltb_nan_l. reflexivity.
Qed.

Lemma sign_values_witness :
  sign (T := float) (PrimFloat.opp (lit 0)) = litf 0.
Proof.
  apply (proj1 (proj2 (proj2 sign_values))). vm_compute. reflexivity.
Defined.

End SelectionProperties.
